(** * A shallow embedding of [raytracer.go]

    The Go program renders a fixed scene of spheres and lights by recursive
    ray tracing.  Every [float64] of the source is a binary64 primitive
    float here ([PrimFloat.float]): [+ - * /] and [math.Sqrt] are the IEEE 754
    operations, each rounded on its own (no fused multiply-add, as on amd64),
    comparisons are the IEEE comparisons (false on NaN), and [math.Inf(1)]
    is [infinity].  There is one NaN: the sign and the payload of a NaN are
    not represented, and an equation between floats reads "the same number,
    zero of the same sign or infinity, or NaN on both sides".  [math.Max] and [math.Min] are written out from their
    documented cases; [math.Pow] is a parameter.  Go's [int] is a 64-bit
    two's complement integer, modelled as [Z] with the wrap-around written
    out.  A slice of sphere or light pointers is a list, and a possibly-nil
    [*Sphere] is an [option Sphere].  The calls on the gg drawing context are
    recorded in the order they are made; a panic or a goroutine blocked for
    ever is the result [None]. *)

From Stdlib Require Import ZArith List Bool String Lia Floats.
From Equations Require Import Equations.
Import ListNotations.

Local Open Scope float_scope.

(** ** Go's [int] *)

Module GoInt.
Local Open Scope Z_scope.

Definition wrap (z : Z) : Z := (z + 2 ^ 63) mod 2 ^ 64 - 2 ^ 63.

Definition in_range (z : Z) : Prop := - 2 ^ 63 <= z < 2 ^ 63.

Definition add (a b : Z) : Z := wrap (a + b).
Definition sub (a b : Z) : Z := wrap (a - b).

End GoInt.

(** ** The part of Go's [math] package the program calls

    [math.Max] and [math.Min] follow the special cases documented in the Go
    standard library: an infinity of the right sign wins, then a NaN argument
    gives NaN, then the two zeros are ordered by sign. *)

Module GoMath.

Definition Inf1 : float := infinity.

Definition IsNaN (f : float) : bool := negb (f =? f).

(** [math.Signbit]: only ever applied to a zero below. *)
Definition Signbit (f : float) : bool := get_sign f.

Definition Max (x y : float) : float :=
  if (x =? infinity) || (y =? infinity) then infinity
  else if IsNaN x || IsNaN y then nan
  else if (x =? 0) && (x =? y) then (if Signbit x then y else x)
  else if y <? x then x
  else y.

Definition Min (x y : float) : float :=
  if (x =? neg_infinity) || (y =? neg_infinity) then neg_infinity
  else if IsNaN x || IsNaN y then nan
  else if (x =? 0) && (x =? y) then (if Signbit x then x else y)
  else if x <? y then x
  else y.

Definition Sqrt (x : float) : float := sqrt x.

End GoMath.

(** ** Data model (lines 16-41) *)

Record Color := mkColor { r : float; g : float; b : float }.

Record Vector := mkVector { x : float; y : float; z : float }.

Record Sphere := mkSphere {
  center : Vector;
  radius : float;
  color : Color;
  specular : float;
  reflective : float
}.

Record Light := mkLight {
  kind : string;
  intensity : float;
  position : Vector;
  direction : Vector
}.

(** ** Constructors and colour algebra (lines 53-94) *)

Definition MakeVector (x y z : float) : Vector := mkVector x y z.

Definition MakeColor (r g b : float) : Color :=
  mkColor (GoMath.Max (GoMath.Min r 1) 0)
          (GoMath.Max (GoMath.Min g 1) 0)
          (GoMath.Max (GoMath.Min b 1) 0).

Definition WeightColor (c : Color) (w : float) : Color :=
  MakeColor (r c * w) (g c * w) (b c * w).

Definition AddColors (c1 c2 : Color) : Color :=
  MakeColor (r c1 + r c2) (g c1 + g c2) (b c1 + b c2).

Definition MakeSphere (center : Vector) (radius : float) (color : Color)
    (specular reflective : float) : Sphere :=
  mkSphere center radius color specular reflective.

Definition MakeLight (kind : string) (intensity : float)
    (position direction : Vector) : Light :=
  mkLight kind intensity position direction.

(** ** Vector algebra (lines 101-128) *)

Definition dot (a b : Vector) : float := x a * x b + y a * y b + z a * z b.

Definition sub (a b : Vector) : Vector :=
  MakeVector (x a - x b) (y a - y b) (z a - z b).

Definition add (a b : Vector) : Vector :=
  MakeVector (x a + x b) (y a + y b) (z a + z b).

Definition mul (a b : Vector) : Vector :=
  MakeVector (x a * x b) (y a * y b) (z a * z b).

Definition neg (a : Vector) : Vector := MakeVector (- x a) (- y a) (- z a).

Definition norm (a : Vector) : float := GoMath.Sqrt (dot a a).

(** Float division never panics in Go: [normalize] is a total function. *)
Definition normalize (a : Vector) : Vector :=
  let length := norm a in
  MakeVector (x a / length) (y a / length) (z a / length).

(** ** Constants (lines 130-132) *)

Definition Vw : Z := 1.
Definition Vh : Z := 1.
Definition Cw : Z := 1024.
Definition Ch : Z := 1024.
Definition d : Z := 1.

(** ** Canvas coordinates (lines 96-99)

    Go's integer division truncates: it is [Z.quot]. *)

Definition ChangeCoord2D (cx cy : Z) : Z * Z :=
  (GoInt.add (Z.quot Cw 2) cx, GoInt.sub (Z.quot Ch 2) cy).

(** ** Geometry (lines 194-236) *)

Definition IntersectRaySphere (origin direction : Vector) (sphere : Sphere)
    : float * float :=
  let r := radius sphere in
  let CO := sub origin (center sphere) in
  let a := dot direction direction in
  let b := 2 * dot CO direction in
  let c := dot CO CO - r * r in
  let discrim := b * b - 4 * a * c in
  if discrim <? 0 then (GoMath.Inf1, GoMath.Inf1)
  else
    let t1 := (- b + GoMath.Sqrt discrim) / (2 * a) in
    let t2 := (- b - GoMath.Sqrt discrim) / (2 * a) in
    (t1, t2).

(** One iteration of the scan of [ClosestIntersection] (lines 200-208): the
    loop state is the pair [(best_sphere, best_t)]. *)
Definition closest_step (origin direction : Vector) (t_min t_max : float)
    (st : option Sphere * float) (sphere : Sphere) : option Sphere * float :=
  let '(t1, t2) := IntersectRaySphere origin direction sphere in
  let st :=
    if (t1 <? snd st) && (t_min <=? t1) && (t1 <=? t_max)
    then (Some sphere, t1) else st in
  if (t2 <? snd st) && (t_min <=? t2) && (t2 <=? t_max)
  then (Some sphere, t2) else st.

Definition ClosestIntersection (spheres : list Sphere)
    (origin direction : Vector) (t_min t_max : float)
    : option Sphere * float :=
  fold_left (closest_step origin direction t_min t_max) spheres (None, t_max).

Definition ReflectRay (ray normal : Vector) : Vector :=
  let k := 2 * dot normal ray in
  sub (mul (MakeVector k k k) normal) ray.

(** ** Shading and the recursive tracer (lines 169-192 and 238-275)

    [math.Pow] is the one library function of the program that is not an
    IEEE primitive; the development is parametric in it. *)

Set Warnings "-inexact-float".

Section Tracer.

Variable Pow : float -> float -> float.

(** The body of the loop over the lights (lines 241-271); [acc] is the
    running [intensity], and the [continue] of line 257 leaves it as is. *)
Definition lighting_step (spheres : list Sphere)
    (point normal reflection : Vector) (specular : float)
    (acc : float) (light : Light) : float :=
  if String.eqb (kind light) "ambient" then acc + intensity light
  else
    let '(L, t_max) :=
      if String.eqb (kind light) "point"
      then (sub (position light) point, 1)
      else (direction light, GoMath.Inf1) in
    let '(shadow_sphere, _) :=
      ClosestIntersection spheres point L 0.001 t_max in
    match shadow_sphere with
    | Some _ => acc
    | None =>
        let N := normalize normal in
        let L := normalize L in
        let acc := acc + intensity light * GoMath.Max 0 (dot N L) in
        if negb (specular =? -1) then
          let R := normalize (ReflectRay L N) in
          let V := normalize reflection in
          acc + intensity light * Pow (GoMath.Max 0 (dot R V)) specular
        else acc
    end.

Definition Lighting (spheres : list Sphere) (lights : list Light)
    (point normal reflection : Vector) (specular : float) : float :=
  fold_left (lighting_step spheres point normal reflection specular)
            lights 0.

(** The recursive call of line 189 is only reached with
    [recursion_depth > 0], so [recursion_depth - 1] cannot overflow and
    the depth is a termination measure.  The test of line 185 is taken
    through [sumbool_of_bool], which hands its outcome to the termination
    proof. *)
Equations? TraceRay (spheres : list Sphere) (lights : list Light)
    (origin direction : Vector) (t_min t_max : float)
    (recursion_depth : Z) : Color
    by wf (Z.to_nat recursion_depth) lt :=
  TraceRay spheres lights origin direction t_min t_max recursion_depth :=
    let '(best_sphere, best_t) :=
      ClosestIntersection spheres origin direction t_min t_max in
    match best_sphere with
    | None => MakeColor 0 0 0
    | Some best_sphere =>
        let t := MakeVector best_t best_t best_t in
        let intersection_pt := add origin (mul t direction) in
        let normal := normalize (sub intersection_pt (center best_sphere)) in
        let intensity :=
          Lighting spheres lights intersection_pt normal (neg direction)
                   (specular best_sphere) in
        let local_color := WeightColor (color best_sphere) intensity in
        let r := reflective best_sphere in
        match sumbool_of_bool ((recursion_depth <=? 0)%Z || (r <=? 0)) with
        | left _ => local_color
        | right _ =>
            let R := ReflectRay (neg direction) normal in
            let reflected_color :=
              TraceRay spheres lights intersection_pt R 0.001 GoMath.Inf1
                       (GoInt.sub recursion_depth 1) in
            AddColors (WeightColor local_color (1 - r))
                      (WeightColor reflected_color r)
        end
    end.
Proof.
  apply orb_false_iff in e. destruct e as [Hd _].
  apply Z.leb_gt in Hd.
  unfold GoInt.sub, GoInt.wrap.
  destruct (Z_lt_le_dec recursion_depth (2 ^ 63)) as [Hs | Hb].
  - rewrite Z.mod_small by lia. lia.
  - pose proof (Z.mod_pos_bound (recursion_depth - 1 + 2 ^ 63) (2 ^ 64)
      ltac:(lia)).
    lia.
Qed.

End Tracer.


(** ** Canvas and frame driver (lines 10-14, 43-51, 134-167, 277-279)

    The gg drawing context is an external collaborator: the model records
    the calls made on it, oldest first.  [gg.NewContext(Cw, Ch)] allocates an
    image whose pixels are addressed by [0 <= i < Cw] and [0 <= j < Ch]. *)

Inductive gg_call :=
| SetPixel (i j : Z)
| SetRGB (r g b : float)
| Fill
| SavePNG (path : string).

Record Canvas := mkCanvas {
  lock : bool;
  wg : Z;
  ctx : list gg_call
}.

Definition in_canvas (ij : Z * Z) : bool :=
  ((0 <=? fst ij) && (fst ij <? Cw) && (0 <=? snd ij) && (snd ij <? Ch))%Z.

(** A run that panics or blocks for ever yields [None]. *)
Definition bind {A B : Type} (e : option A) (k : A -> option B) : option B :=
  match e with
  | Some a => k a
  | None => None
  end.

Notation "c <- e ;; k" := (bind e (fun c => k))
  (at level 61, e at next level, right associativity).

(** [sync.WaitGroup].  Its counter is an [int32] (the program only ever
    adds 1 and -1 to it): a counter that becomes negative panics, and so
    does one raised past [2^31 - 1], which wraps to a negative value.
    [Wait] returns when the counter is zero, and nothing else could lower it
    otherwise. *)
Definition int32_max : Z := 2 ^ 31 - 1.

Definition wg_Add (delta : Z) (c : Canvas) : option Canvas :=
  let n := (wg c + delta)%Z in
  if ((n <? 0) || ((0 <? delta) && (int32_max <? n)))%Z then None
  else Some (mkCanvas (lock c) n (ctx c)).

Definition wg_Done (c : Canvas) : option Canvas := wg_Add (-1) c.

Definition wg_Wait (c : Canvas) : option Canvas :=
  if (wg c =? 0)%Z then Some c else None.

(** [sync.Mutex] *)
Definition lock_Lock (c : Canvas) : option Canvas :=
  if lock c then None else Some (mkCanvas true (wg c) (ctx c)).

Definition lock_Unlock (c : Canvas) : option Canvas :=
  if lock c then Some (mkCanvas false (wg c) (ctx c)) else None.

Definition ctx_call (k : gg_call) (c : Canvas) : Canvas :=
  mkCanvas (lock c) (wg c) (ctx c ++ [k]).

(** The deferred [wg.Done] runs when the method returns. *)
Definition PutPixel (c : Canvas) (x y : Z) (color : Color) : option Canvas :=
  let '(i, j) := ChangeCoord2D x y in
  c <- lock_Lock c ;;
  let c := ctx_call (SetPixel i j) c in
  let c := ctx_call (SetRGB (r color) (g color) (b color)) c in
  let c := ctx_call Fill c in
  c <- lock_Unlock c ;;
  wg_Done c.

(** The conversion [float64(x)] of an [int]: round to nearest even. *)
Definition float64 (n : Z) : float :=
  SF2Prim (binary_normalize prec emax n 0%Z false).

Definition CanvasToViewPort (x y : Z) : Vector :=
  MakeVector (float64 x * float64 Vw / float64 Cw)
             (float64 y * float64 Vh / float64 Ch)
             (float64 d).

(** [for i := lo; i < hi; i++] *)
Definition int_range (lo hi : Z) : list Z :=
  map (fun k => (lo + Z.of_nat k)%Z) (seq 0 (Z.to_nat (hi - lo))).

(** The pixel coordinates in the order the nested loops of lines 154-155
    visit them. *)
Definition pixel_coords : list (Z * Z) :=
  flat_map (fun x => map (fun y => (x, y))
                         (int_range (Z.quot (- Ch) 2) (Z.quot Ch 2)))
           (int_range (Z.quot (- Cw) 2) (Z.quot Cw 2)).

(** The scene of lines 140-149. *)
Definition s1 := MakeSphere (MakeVector 0 (-1) 3) 1 (MakeColor 1 0 0) 500 0.2.
Definition s2 := MakeSphere (MakeVector 2 0 4) 1 (MakeColor 0 0 1) 500 0.3.
Definition s3 := MakeSphere (MakeVector (-2) 0 4) 1 (MakeColor 0 1 0) 10 0.4.
Definition s4 :=
  MakeSphere (MakeVector 0 (-5001) 0) 5000 (MakeColor 1 1 0) 1000 0.5.
Definition scene_spheres : list Sphere := [s1; s2; s3; s4].

Definition l1 :=
  MakeLight "ambient" 0.2 (MakeVector 0 0 0) (MakeVector 0 0 0).
Definition l2 := MakeLight "point" 0.6 (MakeVector 2 1 0) (MakeVector 0 0 0).
Definition l3 :=
  MakeLight "directional" 0.2 (MakeVector 0 0 0) (MakeVector 1 4 4).
Definition scene_lights : list Light := [l1; l2; l3].

Definition max_recursion_depth : Z := 3.

Section Driver.

Variable Pow : float -> float -> float.

(** Lines 156-161.  The function literal of line 158 is followed directly
    by its argument list and is not the operand of a [go] statement: it is
    an ordinary call that has returned before the loop goes on. *)
Definition draw_pixel (spheres : list Sphere) (lights : list Light)
    (O : Vector) (canvas : Canvas) (xy : Z * Z) : option Canvas :=
  let '(x, y) := xy in
  let D := CanvasToViewPort x y in
  canvas <- wg_Add 1 canvas ;;
  let color :=
    TraceRay Pow spheres lights O D 1 GoMath.Inf1 max_recursion_depth in
  PutPixel canvas x y color.

Fixpoint draw_scene (spheres : list Sphere) (lights : list Light)
    (O : Vector) (coords : list (Z * Z)) (canvas : Canvas) : option Canvas :=
  match coords with
  | [] => Some canvas
  | xy :: rest =>
      canvas <- draw_pixel spheres lights O canvas xy ;;
      draw_scene spheres lights O rest canvas
  end.

Definition main : option Canvas :=
  let O := MakeVector 0 0 (-3) in
  let canvas := mkCanvas false 0 [] in
  canvas <- draw_scene scene_spheres scene_lights O pixel_coords canvas ;;
  canvas <- wg_Wait canvas ;;
  Some (ctx_call (SavePNG "out.png") canvas).

End Driver.

(** ** Vocabulary of the statements *)

(** A channel value lies in the closed interval from 0 to 1. *)
Definition in_unit (c : float) : bool := (0 <=? c) && (c <=? 1).

(** A value is NaN or an infinity: no finite number. *)
Definition degenerate (f : float) : bool :=
  GoMath.IsNaN f || (f =? infinity) || (f =? neg_infinity).

(** The two values [IntersectRaySphere] reports for a sphere. *)
Definition roots (origin direction : Vector) (sphere : Sphere) : list float :=
  let '(t1, t2) := IntersectRaySphere origin direction sphere in [t1; t2].

(** [t_min <= t] and [t < t_max]. *)
Definition valid_root (t_min t_max t : float) : bool :=
  (t_min <=? t) && (t <? t_max).

(** The point of the ray at parameter [t] and the unit normal of a sphere
    there (lines 177-179). *)
Definition hit_point (origin direction : Vector) (best_t : float) : Vector :=
  let t := MakeVector best_t best_t best_t in
  add origin (mul t direction).

Definition hit_normal (origin direction : Vector) (best_sphere : Sphere)
    (best_t : float) : Vector :=
  normalize (sub (hit_point origin direction best_t) (center best_sphere)).

(** The calls a pixel's [PutPixel] makes on the drawing context. *)
Definition pixel_calls (xy : Z * Z) (color : Color) : list gg_call :=
  let '(i, j) := ChangeCoord2D (fst xy) (snd xy) in
  [SetPixel i j; SetRGB (r color) (g color) (b color); Fill].

Section Vocabulary.

Variable Pow : float -> float -> float.

(** The colour of local shading alone (lines 177-181). *)
Definition local_shading (spheres : list Sphere) (lights : list Light)
    (origin direction : Vector) (best_sphere : Sphere) (best_t : float)
    : Color :=
  let intersection_pt := hit_point origin direction best_t in
  let normal := hit_normal origin direction best_sphere best_t in
  let intensity :=
    Lighting Pow spheres lights intersection_pt normal (neg direction)
             (specular best_sphere) in
  WeightColor (color best_sphere) intensity.

(** The shadow ray of a light that is not ambient, with the upper bound of
    its shadow test. *)
Definition shadow_ray (point : Vector) (light : Light) : Vector * float :=
  if String.eqb (kind light) "point"
  then (sub (position light) point, 1)
  else (direction light, GoMath.Inf1).

(** A light that is not ambient and whose shadow test finds a sphere. *)
Definition occluded (spheres : list Sphere) (point : Vector) (light : Light)
    : bool :=
  negb (String.eqb (kind light) "ambient") &&
  match fst (ClosestIntersection spheres point
               (fst (shadow_ray point light)) 0.001
               (snd (shadow_ray point light))) with
  | Some _ => true
  | None => false
  end.

(** What an unoccluded point or directional light adds (lines 261-270). *)
Definition diffuse_specular (normal reflection : Vector) (specular : float)
    (L : Vector) (light : Light) (acc : float) : float :=
  let N := normalize normal in
  let L := normalize L in
  let acc := acc + intensity light * GoMath.Max 0 (dot N L) in
  if negb (specular =? -1) then
    let R := normalize (ReflectRay L N) in
    let V := normalize reflection in
    acc + intensity light * Pow (GoMath.Max 0 (dot R V)) specular
  else acc.

(** The colour [draw_pixel] computes for a pixel. *)
Definition pixel_color (spheres : list Sphere) (lights : list Light)
    (O : Vector) (xy : Z * Z) : Color :=
  TraceRay Pow spheres lights O (CanvasToViewPort (fst xy) (snd xy))
           1 GoMath.Inf1 max_recursion_depth.

End Vocabulary.

(** ** The order of binary64 values

    The IEEE comparisons are read through [Prim2SF]: a NaN compares false
    with everything, and the other values are ordered like the keys below,
    compared lexicographically (the two zeros share a key). *)

Module FloatOrder.
Local Open Scope Z_scope.

Definition key (f : spec_float) : Z * Z * Z :=
  match f with
  | S754_infinity true => (-2, 0, 0)
  | S754_finite true m e => (-1, - e, Z.neg m)
  | S754_zero _ => (0, 0, 0)
  | S754_finite false m e => (1, e, Z.pos m)
  | S754_infinity false => (2, 0, 0)
  | S754_nan => (3, 0, 0)
  end.

Definition lexlt (k1 k2 : Z * Z * Z) : Prop :=
  let '(a1, b1, c1) := k1 in
  let '(a2, b2, c2) := k2 in
  a1 < a2 \/ (a1 = a2 /\ (b1 < b2 \/ (b1 = b2 /\ c1 < c2))).

Definition fnan (f : float) : Prop := Prim2SF f = S754_nan.
Definition fkey (f : float) : Z * Z * Z := key (Prim2SF f).

Definition flt (a b : float) : Prop :=
  ~ fnan a /\ ~ fnan b /\ lexlt (fkey a) (fkey b).
Definition fle (a b : float) : Prop :=
  ~ fnan a /\ ~ fnan b /\ (lexlt (fkey a) (fkey b) \/ fkey a = fkey b).
Definition feq (a b : float) : Prop :=
  ~ fnan a /\ ~ fnan b /\ fkey a = fkey b.

End FloatOrder.

(** ** A small scene for concrete runs

    One unit sphere straight ahead of the eye, an ambient and a point light.
    The spheres disable the specular term (exponent -1), so [math.Pow] is
    never called on this scene and any function can stand for it. *)

Module TestScene.

Definition Pow_unreached (_ _ : float) : float := nan.

Definition mirror : Sphere :=
  MakeSphere (MakeVector 0 0 3) 1 (MakeColor 1 0 0) (-1) 1.
Definition matte : Sphere :=
  MakeSphere (MakeVector 0 0 3) 1 (MakeColor 1 0 0) (-1) 0.
Definition half : Sphere :=
  MakeSphere (MakeVector 0 0 3) 1 (MakeColor 1 0 0) (-1) 0.5.

Definition ambient : Light :=
  MakeLight "ambient" 0.5 (MakeVector 0 0 0) (MakeVector 0 0 0).
Definition lamp : Light :=
  MakeLight "point" 0.5 (MakeVector 0 0 0) (MakeVector 0 0 0).
Definition lights : list Light := [ambient; lamp].

Definition eye : Vector := MakeVector 0 0 0.
Definition ahead : Vector := MakeVector 0 0 1.
Definition behind : Vector := MakeVector 0 0 (-1).
Definition zero : Vector := MakeVector 0 0 0.

End TestScene.

(** A channel [ch] built from the raw value [v]: in the unit interval, or
    NaN when [v] is. *)
Definition clamped (v ch : float) : Prop :=
  in_unit ch = negb (GoMath.IsNaN v) /\ GoMath.IsNaN ch = GoMath.IsNaN v.

(** The three channels of a colour lie in the unit interval. *)
Definition unit_channels (c : Color) : bool :=
  in_unit (r c) && in_unit (g c) && in_unit (b c).

Definition is_ambient (light : Light) : bool :=
  String.eqb (kind light) "ambient".

(** ** Vocabulary for the scan of [ClosestIntersection]

    What the pair returned for a list of spheres has to satisfy.  With no
    sphere returned, the distance is [t_max] itself and no sphere has a root
    in the range.  With sphere [s] and distance [t], [s] stands at some
    index [i] of the list, [t] is one of its roots and is in the range, no
    root in the range of any sphere is below [t], and the roots in the range
    of the spheres before index [i] are strictly above [t]. *)
Definition closest_spec (origin direction : Vector) (t_min t_max : float)
    (spheres : list Sphere) (res : option Sphere * float) : Prop :=
  match res with
  | (None, t) =>
      t = t_max /\
      forall s t', In s spheres -> In t' (roots origin direction s) ->
                   valid_root t_min t_max t' = false
  | (Some s, t) =>
      exists i : nat,
        nth_error spheres i = Some s /\
        In t (roots origin direction s) /\
        valid_root t_min t_max t = true /\
        forall (j : nat) s' t',
          nth_error spheres j = Some s' ->
          In t' (roots origin direction s') ->
          valid_root t_min t_max t' = true ->
          (t <=? t') = true /\ ((j < i)%nat -> (t <? t') = true)
  end.

(** One of the two tests of the loop body, on the root [t] of [sphere]. *)
Definition try_root (t_min t_max : float) (st : option Sphere * float)
    (sphere : Sphere) (t : float) : option Sphere * float :=
  if (t <? snd st) && (t_min <=? t) && (t <=? t_max)
  then (Some sphere, t) else st.

(** The roots the scan goes through, in order, each with its sphere and the
    index of that sphere, counted from [i]. *)
Fixpoint candidates (origin direction : Vector) (i : nat)
    (spheres : list Sphere) : list (nat * Sphere * float) :=
  match spheres with
  | [] => []
  | s :: rest =>
      (i, s, fst (IntersectRaySphere origin direction s))
      :: (i, s, snd (IntersectRaySphere origin direction s))
      :: candidates origin direction (S i) rest
  end.

(** The invariant of the scan over the candidates seen so far. *)
Definition scan_inv (t_min t_max : float)
    (seen : list (nat * Sphere * float)) (st : option Sphere * float)
    : Prop :=
  match st with
  | (None, t) =>
      t = t_max /\
      forall j s' t', In (j, s', t') seen ->
                      valid_root t_min t_max t' = false
  | (Some s, t) =>
      exists i : nat,
        In (i, s, t) seen /\
        valid_root t_min t_max t = true /\
        forall j s' t',
          In (j, s', t') seen ->
          valid_root t_min t_max t' = true ->
          (t <=? t') = true /\ ((j < i)%nat -> (t <? t') = true)
  end.

(** ** Vocabulary of the further properties *)

(** The discriminant [IntersectRaySphere] computes (lines 216-224). *)
Definition discriminant (origin direction : Vector) (sphere : Sphere)
    : float :=
  let r := radius sphere in
  let CO := sub origin (center sphere) in
  let a := dot direction direction in
  let b := 2 * dot CO direction in
  let c := dot CO CO - r * r in
  b * b - 4 * a * c.

(** The ray passes by the sphere: the discriminant is negative. *)
Definition misses (origin direction : Vector) (sphere : Sphere) : bool :=
  discriminant origin direction sphere <? 0.

(** A channel is in the unit interval or NaN. *)
Definition unit_or_nan (c : float) : bool := in_unit c || GoMath.IsNaN c.

(** A float is NaN or not below zero. *)
Definition nonneg_or_nan (f : float) : bool := GoMath.IsNaN f || (0 <=? f).

(** A light as the loop of [Lighting] reads it: every kind other than
    ["ambient"] and ["point"] is handled by the directional branch, and the
    fields its branch does not use are blanked: both vectors of an ambient
    light, the direction of a point light, the position of any other light. *)
Definition as_read (light : Light) : Light :=
  if String.eqb (kind light) "ambient" then
    MakeLight "ambient" (intensity light) (MakeVector 0 0 0)
              (MakeVector 0 0 0)
  else if String.eqb (kind light) "point" then
    MakeLight "point" (intensity light) (position light) (MakeVector 0 0 0)
  else
    MakeLight "directional" (intensity light) (MakeVector 0 0 0)
              (direction light).

(** The canvas cell a pixel coordinate is sent to. *)
Definition cell (xy : Z * Z) : Z * Z := ChangeCoord2D (fst xy) (snd xy).

(** A second scene for concrete runs: a matte sphere further along the
    same ray. *)
Module TestScene2.

Definition far : Sphere :=
  MakeSphere (MakeVector 0 0 10) 1 (MakeColor 0 1 0) (-1) 0.

Definition spot : Light :=
  MakeLight "spot" 0.5 (MakeVector 0 0 0) (MakeVector 0 0 (-1)).

End TestScene2.

(** The first two components of a primary ray direction, as
    [CanvasToViewPort] computes them from a pixel coordinate. *)
Definition viewport_component (k : Z) : float :=
  float64 k * float64 Vw / float64 Cw.

(** The squares of the components met on the loop range. *)
Definition component_squares : list float :=
  map (fun k => viewport_component k * viewport_component k)
      (int_range (Z.quot (- Cw) 2) (Z.quot Cw 2)).

(** A binary64 value read through [Prim2SF] that is not below zero: NaN, a
    zero of either sign, or a number or infinity with the sign bit clear. *)
Definition sf_nonneg (f : spec_float) : Prop :=
  match f with
  | S754_nan => True
  | S754_zero _ => True
  | S754_infinity s => s = false
  | S754_finite s _ _ => s = false
  end.

(** * Properties *)

(** ** Go's [int] arithmetic in range *)

Lemma wrap_small z : GoInt.in_range z -> GoInt.wrap z = z.
Proof.
  unfold GoInt.in_range, GoInt.wrap. intros Hz.
  rewrite Z.mod_small; lia.
Qed.

Lemma wrap_bounds z : GoInt.in_range (GoInt.wrap z).
Proof.
  unfold GoInt.in_range, GoInt.wrap.
  pose proof (Z.mod_pos_bound (z + 2 ^ 63) (2 ^ 64) ltac:(lia)). lia.
Qed.

(** ** Facts on the order of binary64 values *)

Module FloatOrderFacts.
Import FloatOrder.
Local Open Scope Z_scope.

Ltac cmp_cases :=
  repeat match goal with
  | |- context [(?a ?= ?b)%Z] => destruct (Z.compare_spec a b)
  | |- context [Pos.compare_cont Eq ?a ?b] =>
      change (Pos.compare_cont Eq a b) with (Pos.compare a b);
      destruct (Pos.compare_spec a b)
  end.

Lemma SFcompare_key (u v : spec_float) :
  u <> S754_nan -> v <> S754_nan ->
  (SFcompare u v = Some Lt <-> lexlt (key u) (key v)) /\
  (SFcompare u v = Some Eq <-> key u = key v) /\
  (SFcompare u v = Some Gt <-> lexlt (key v) (key u)).
Proof.
  intros Hu Hv.
  destruct u as [su | su | | su mu eu]; try congruence;
  destruct v as [sv | sv | | sv mv ev]; try congruence;
  try destruct su; try destruct sv; cbn [SFcompare key lexlt CompOpp];
  cmp_cases; cbn [CompOpp];
  repeat split; intros; try congruence; try lia;
  try (f_equal; lia);
  match goal with
  | H : (_, _, _) = (_, _, _) |- _ => inversion H; lia
  | _ => idtac
  end.
Qed.

Lemma SFcompare_nan (u v : spec_float) :
  SFcompare u v = None <-> u = S754_nan \/ v = S754_nan.
Proof.
  destruct u as [su | su | | su mu eu], v as [sv | sv | | sv mv ev];
  try destruct su; try destruct sv; cbn [SFcompare];
  split; intros H; try discriminate; auto;
  destruct H; discriminate.
Qed.

Lemma ltb_flt a b : (a <? b)%float = true <-> flt a b.
Proof.
  rewrite ltb_spec. unfold SFltb, flt, fnan, fkey.
  destruct (SFcompare (Prim2SF a) (Prim2SF b)) as [c |] eqn:E.
  - assert (Hn : ~ (Prim2SF a = S754_nan \/ Prim2SF b = S754_nan)).
    { rewrite <- SFcompare_nan. congruence. }
    destruct (SFcompare_key (Prim2SF a) (Prim2SF b)) as (Hl & He & Hg);
      [tauto | tauto |].
    rewrite <- Hl, E. destruct c; split; intros H; try discriminate;
      try tauto; destruct H as (_ & _ & H); discriminate.
  - apply SFcompare_nan in E. split; [discriminate | tauto].
Qed.

Lemma leb_fle a b : (a <=? b)%float = true <-> fle a b.
Proof.
  rewrite leb_spec. unfold SFleb, fle, fnan, fkey.
  destruct (SFcompare (Prim2SF a) (Prim2SF b)) as [c |] eqn:E.
  - assert (Hn : ~ (Prim2SF a = S754_nan \/ Prim2SF b = S754_nan)).
    { rewrite <- SFcompare_nan. congruence. }
    destruct (SFcompare_key (Prim2SF a) (Prim2SF b)) as (Hl & He & Hg);
      [tauto | tauto |].
    rewrite <- Hl, <- He, E.
    destruct c; split; intros H; try discriminate; try tauto;
      destruct H as (_ & _ & [H | H]); discriminate.
  - apply SFcompare_nan in E. split; [discriminate | tauto].
Qed.

Lemma eqb_feq a b : (a =? b)%float = true <-> feq a b.
Proof.
  rewrite eqb_spec. unfold SFeqb, feq, fnan, fkey.
  destruct (SFcompare (Prim2SF a) (Prim2SF b)) as [c |] eqn:E.
  - assert (Hn : ~ (Prim2SF a = S754_nan \/ Prim2SF b = S754_nan)).
    { rewrite <- SFcompare_nan. congruence. }
    destruct (SFcompare_key (Prim2SF a) (Prim2SF b)) as (Hl & He & Hg);
      [tauto | tauto |].
    rewrite <- He, E.
    destruct c; split; intros H; try discriminate; try tauto;
      destruct H as (_ & _ & H); discriminate.
  - apply SFcompare_nan in E. split; [discriminate | tauto].
Qed.

Lemma IsNaN_fnan a : GoMath.IsNaN a = true <-> fnan a.
Proof.
  unfold GoMath.IsNaN. rewrite negb_true_iff, <- not_true_iff_false, eqb_feq.
  unfold feq. split.
  - intros H. destruct (Prim2SF a) eqn:E; unfold fnan; rewrite E;
      try reflexivity; exfalso; apply H; unfold fnan; rewrite E;
      repeat split; discriminate.
  - tauto.
Qed.

(** Reads every comparison of the context and of the goal through the keys,
    then decides the resulting order problem. *)
Ltac forder_hyps :=
  repeat match goal with
  | H : (_ <? _)%float = true |- _ => apply ltb_flt in H
  | H : (_ <=? _)%float = true |- _ => apply leb_fle in H
  | H : (_ =? _)%float = true |- _ => apply eqb_feq in H
  | H : (_ <? _)%float = false |- _ =>
      apply not_true_iff_false in H; rewrite ltb_flt in H
  | H : (_ <=? _)%float = false |- _ =>
      apply not_true_iff_false in H; rewrite leb_fle in H
  | H : (_ =? _)%float = false |- _ =>
      apply not_true_iff_false in H; rewrite eqb_feq in H
  | H : GoMath.IsNaN _ = true |- _ => apply IsNaN_fnan in H
  | H : GoMath.IsNaN _ = false |- _ =>
      apply not_true_iff_false in H; rewrite IsNaN_fnan in H
  end.

Ltac forder_goal :=
  match goal with
  | |- (_ <? _)%float = true => apply ltb_flt
  | |- (_ <=? _)%float = true => apply leb_fle
  | |- (_ =? _)%float = true => apply eqb_feq
  | |- (_ <? _)%float = false =>
      apply not_true_iff_false; rewrite ltb_flt
  | |- (_ <=? _)%float = false =>
      apply not_true_iff_false; rewrite leb_fle
  | |- (_ =? _)%float = false =>
      apply not_true_iff_false; rewrite eqb_feq
  | |- GoMath.IsNaN _ = true => apply IsNaN_fnan
  | |- GoMath.IsNaN _ = false =>
      apply not_true_iff_false; rewrite IsNaN_fnan
  | _ => idtac
  end.

Ltac forder_keys :=
  repeat match goal with
  | |- context [fkey ?a] =>
      let k := fresh "k" in
      remember (fkey a) as k eqn:Ek; clear Ek; destruct k as [[? ?] ?]
  | H : context [fkey ?a] |- _ =>
      let k := fresh "k" in
      remember (fkey a) as k eqn:Ek; clear Ek; destruct k as [[? ?] ?]
  end.

Lemma key_eq (a1 b1 c1 a2 b2 c2 : Z) :
  (a1, b1, c1) = (a2, b2, c2) <-> a1 = a2 /\ b1 = b2 /\ c1 = c2.
Proof. split; [intros H; inversion H | intros (-> & -> & ->)]; auto. Qed.

(** The constants the program compares with. *)
Lemma fkey_0 : fkey 0%float = (0, 0, 0).
Proof. reflexivity. Qed.
Lemma fkey_1 : fkey 1%float = (1, -52, 4503599627370496).
Proof. reflexivity. Qed.
Lemma fkey_infinity : fkey infinity = (2, 0, 0).
Proof. reflexivity. Qed.
Lemma fkey_neg_infinity : fkey neg_infinity = (-2, 0, 0).
Proof. reflexivity. Qed.
Lemma fnan_nan : fnan nan.
Proof. reflexivity. Qed.
Lemma not_fnan_0 : ~ fnan 0%float.
Proof. discriminate. Qed.
Lemma not_fnan_1 : ~ fnan 1%float.
Proof. discriminate. Qed.
Lemma not_fnan_infinity : ~ fnan infinity.
Proof. discriminate. Qed.
Lemma not_fnan_neg_infinity : ~ fnan neg_infinity.
Proof. discriminate. Qed.

Ltac forder :=
  forder_hyps; forder_goal; unfold flt, fle, feq in *;
  rewrite ?fkey_0, ?fkey_1, ?fkey_infinity, ?fkey_neg_infinity in *;
  pose proof fnan_nan; pose proof not_fnan_0; pose proof not_fnan_1;
  pose proof not_fnan_infinity; pose proof not_fnan_neg_infinity;
  forder_keys; unfold lexlt in *; rewrite ?key_eq in *;
  intuition lia.

Lemma ltb_leb a b : (a <? b)%float = true -> (a <=? b)%float = true.
Proof. intros. forder. Qed.

Lemma ltb_trans a b c :
  (a <? b)%float = true -> (b <? c)%float = true -> (a <? c)%float = true.
Proof. intros. forder. Qed.

Lemma ltb_leb_trans a b c :
  (a <? b)%float = true -> (b <=? c)%float = true -> (a <? c)%float = true.
Proof. intros. forder. Qed.

Lemma leb_ltb_trans a b c :
  (a <=? b)%float = true -> (b <? c)%float = true -> (a <? c)%float = true.
Proof. intros. forder. Qed.

Lemma leb_trans a b c :
  (a <=? b)%float = true -> (b <=? c)%float = true -> (a <=? c)%float = true.
Proof. intros. forder. Qed.

Lemma ltb_not_leb a b : (a <? b)%float = true -> (b <=? a)%float = false.
Proof. intros. forder. Qed.

Lemma leb_not_ltb a b : (a <=? b)%float = true -> (b <? a)%float = false.
Proof. intros. forder. Qed.

(** Two values that each take part in a true comparison are ordered. *)
Lemma not_ltb_leb a b lo hi :
  (lo <=? a)%float = true -> (b <? hi)%float = true ->
  (a <? b)%float = false -> (b <=? a)%float = true.
Proof. intros. forder. Qed.

Lemma leb_refl_iff a : (a <=? a)%float = negb (GoMath.IsNaN a).
Proof.
  destruct (GoMath.IsNaN a) eqn:E; cbn [negb]; forder.
Qed.

End FloatOrderFacts.

(** ** Colour construction clamps, NaN apart *)

Section Clamp.
Import FloatOrder FloatOrderFacts.

Lemma Min_1_nan v : GoMath.IsNaN v = true -> GoMath.Min v 1 = nan.
Proof.
  intros Hv. unfold GoMath.Min. rewrite Hv.
  destruct (v =? neg_infinity)%float eqn:E; [exfalso; forder |].
  reflexivity.
Qed.

Lemma Min_1_le v :
  GoMath.IsNaN v = false ->
  GoMath.IsNaN (GoMath.Min v 1) = false /\
  (GoMath.Min v 1 <=? 1)%float = true.
Proof.
  intros Hv. unfold GoMath.Min. rewrite Hv.
  change (GoMath.IsNaN 1) with false.
  change (1 =? neg_infinity)%float with false.
  destruct (v =? neg_infinity)%float eqn:E1; cbn [orb];
    [split; reflexivity |].
  assert (Hlt : GoMath.IsNaN (if (v <? 1)%float then v else 1) = false /\
                ((if (v <? 1)%float then v else 1) <=? 1)%float = true).
  { destruct (v <? 1)%float eqn:E4; split;
      solve [assumption | reflexivity | forder]. }
  destruct (v =? 0)%float eqn:E2; cbn [andb]; [| exact Hlt].
  destruct (v =? 1)%float eqn:E3; [exfalso; forder | exact Hlt].
Qed.

Lemma Max_0_unit m :
  GoMath.IsNaN m = false -> (m <=? 1)%float = true ->
  GoMath.IsNaN (GoMath.Max m 0) = false /\ in_unit (GoMath.Max m 0) = true.
Proof.
  intros Hm Hle. unfold in_unit, GoMath.Max. rewrite Hm.
  change (GoMath.IsNaN 0) with false.
  change (0 =? infinity)%float with false.
  destruct (m =? infinity)%float eqn:E1; [exfalso; forder |].
  cbn [orb].
  destruct (m =? 0)%float eqn:E2; cbn [andb].
  - destruct (GoMath.Signbit m).
    + split; reflexivity.
    + split; [assumption |]. apply andb_true_iff. split; forder.
  - destruct (0 <? m)%float eqn:E3.
    + split; [assumption |]. apply andb_true_iff. split; forder.
    + split; reflexivity.
Qed.

Lemma clamp_channel v :
  in_unit (GoMath.Max (GoMath.Min v 1) 0) = negb (GoMath.IsNaN v) /\
  GoMath.IsNaN (GoMath.Max (GoMath.Min v 1) 0) = GoMath.IsNaN v.
Proof.
  destruct (GoMath.IsNaN v) eqn:Hv; cbn [negb].
  - rewrite (Min_1_nan v Hv). split; reflexivity.
  - destruct (Min_1_le v Hv) as [Hn Hle].
    destruct (Max_0_unit _ Hn Hle) as [Hn' Hu]. split; assumption.
Qed.

(** Rounding a non-negative mantissa never gives NaN. *)
Lemma shr_1_nonneg mrs : (0 <= shr_m mrs)%Z -> (0 <= shr_m (shr_1 mrs))%Z.
Proof.
  destruct mrs as [m r0 s0]. cbn [shr_m]. intros H.
  destruct m as [| p | p]; cbn; try lia; destruct p; cbn; lia.
Qed.

Lemma iter_pos_inv {A : Type} (P : A -> Prop) (f : A -> A) :
  (forall a, P a -> P (f a)) -> forall p a, P a -> P (iter_pos f p a).
Proof.
  intros Hf. induction p as [p IH | p IH |]; intros a Ha; cbn; auto.
Qed.

Lemma shr_fexp_nonneg m e l :
  (0 <= m)%Z -> (0 <= shr_m (fst (shr_fexp prec emax m e l)))%Z.
Proof.
  intros Hm. unfold shr_fexp, shr.
  assert (H0 : (0 <= shr_m (shr_record_of_loc m l))%Z)
    by (destruct l as [| []]; exact Hm).
  destruct (_ - e)%Z; cbn [fst]; try exact H0.
  apply (iter_pos_inv (fun mrs => (0 <= shr_m mrs)%Z));
    [apply shr_1_nonneg | exact H0].
Qed.

Lemma binary_round_aux_not_nan sx m e l :
  (0 <= m)%Z -> binary_round_aux prec emax sx m e l <> S754_nan.
Proof.
  intros Hm. unfold binary_round_aux.
  pose proof (shr_fexp_nonneg m e l Hm) as H1.
  destruct (shr_fexp prec emax m e l) as [mrs' e'] eqn:E1. cbn [fst] in H1.
  assert (H2 : (0 <= round_nearest_even (shr_m mrs')
                       (loc_of_shr_record mrs'))%Z).
  { unfold round_nearest_even.
    destruct (loc_of_shr_record mrs') as [| []]; try lia.
    destruct (Z.even _); lia. }
  pose proof (shr_fexp_nonneg _ e' loc_Exact H2) as H3.
  destruct (shr_fexp prec emax _ e' loc_Exact) as [mrs'' e''] eqn:E2.
  cbn [fst] in H3.
  destruct (shr_m mrs'') as [| p | p]; try discriminate; [| lia].
  destruct (_ <=? _)%Z; discriminate.
Qed.

(** A channel in the unit interval is a zero or a positive finite number. *)
Lemma in_unit_shape a :
  in_unit a = true ->
  (exists s, Prim2SF a = S754_zero s) \/
  (exists m e, Prim2SF a = S754_finite false m e).
Proof.
  unfold in_unit. rewrite andb_true_iff, !leb_fle. unfold fle, fnan, fkey.
  change (key (Prim2SF 0)) with (0, 0, 0)%Z.
  change (key (Prim2SF 1)) with (1, -52, 4503599627370496)%Z.
  intros [(_ & Hn & H0) (_ & _ & H1)].
  destruct (Prim2SF a) as [s | s | | s m e]; try congruence;
    try destruct s; cbn [key] in *; unfold lexlt in *;
    rewrite ?key_eq in *; eauto; exfalso; lia.
Qed.

Lemma not_degenerate_shape w :
  degenerate w = false ->
  (exists s, Prim2SF w = S754_zero s) \/
  (exists s m e, Prim2SF w = S754_finite s m e).
Proof.
  unfold degenerate, GoMath.IsNaN. rewrite !orb_false_iff, !eqb_spec.
  change (Prim2SF infinity) with (S754_infinity false).
  change (Prim2SF neg_infinity) with (S754_infinity true).
  intros [[Hn Hi] Hni].
  destruct (Prim2SF w) as [s | s | | s m e]; eauto;
    try destruct s; discriminate.
Qed.

Lemma add_unit_not_nan a c :
  in_unit a = true -> in_unit c = true -> GoMath.IsNaN (a + c) = false.
Proof.
  intros Ha Hc. apply not_true_iff_false. rewrite IsNaN_fnan.
  unfold fnan. rewrite add_spec. unfold SF64add.
  destruct (in_unit_shape a Ha) as [[sa ->] | (ma & ea & ->)];
  destruct (in_unit_shape c Hc) as [[sc ->] | (mc & ec & ->)];
    cbn [SFadd]; try discriminate.
  - destruct sa, sc; discriminate.
  - cbn [cond_Zopp Z.add binary_normalize]. unfold binary_round.
    destruct (shl_align _ _ _) as [mz ez].
    apply binary_round_aux_not_nan. lia.
Qed.

Lemma mul_unit_not_nan a w :
  in_unit a = true -> degenerate w = false -> GoMath.IsNaN (a * w) = false.
Proof.
  intros Ha Hw. apply not_true_iff_false. rewrite IsNaN_fnan.
  unfold fnan. rewrite mul_spec. unfold SF64mul.
  destruct (in_unit_shape a Ha) as [[sa ->] | (ma & ea & ->)];
  destruct (not_degenerate_shape w Hw) as [[sw ->] | (sw & mw & ew & ->)];
    cbn [SFmul]; try discriminate.
  apply binary_round_aux_not_nan. lia.
Qed.

End Clamp.

(** ** The recursive tracer *)

Section TracerFacts.
Import FloatOrderFacts.

Variable Pow : float -> float -> float.

(** C6: a ray that no sphere intersects in the valid range traces to the
    background colour, black [(0, 0, 0)] exactly, at every depth and for
    every list of lights. *)
Theorem TraceRay_miss_is_background
    (spheres : list Sphere) (lights : list Light)
    (origin direction : Vector) (t_min t_max : float) (depth : Z)
    (t : float) :
  ClosestIntersection spheres origin direction t_min t_max = (None, t) ->
  TraceRay Pow spheres lights origin direction t_min t_max depth
    = MakeColor 0 0 0
  /\ MakeColor 0 0 0 = mkColor 0 0 0.
Proof.
  intros Hmiss. split; [| reflexivity].
  rewrite TraceRay_equation_1, Hmiss. reflexivity.
Qed.

(** C1: when the ray hits a sphere whose reflectivity is [<= 0], or when
    the recursion depth is [<= 0], the tracer returns the local shading
    colour as it is, a term in which the tracer does not occur. *)
Theorem TraceRay_local_only
    (spheres : list Sphere) (lights : list Light)
    (origin direction : Vector) (t_min t_max : float) (depth : Z)
    (s : Sphere) (t : float) :
  ClosestIntersection spheres origin direction t_min t_max = (Some s, t) ->
  (depth <= 0)%Z \/ (reflective s <=? 0) = true ->
  TraceRay Pow spheres lights origin direction t_min t_max depth
    = local_shading Pow spheres lights origin direction s t.
Proof.
  intros Hhit Hstop.
  rewrite TraceRay_equation_1, Hhit. cbv zeta.
  destruct (sumbool_of_bool _) as [_ | Hgo]; [reflexivity |].
  apply orb_false_iff in Hgo. destruct Hgo as [Hd Hr].
  apply Z.leb_gt in Hd. destruct Hstop as [Hle | Hle]; [lia | congruence].
Qed.

(** C2: at a depth [> 0], on a sphere of reflectivity [r > 0], the tracer
    recurses from the hit point along the reflected direction with bounds
    [0.001] and [+infinity] at depth [depth - 1] and blends:
    [AddColors (WeightColor local (1 - r)) (WeightColor reflected r)]. *)
Theorem TraceRay_reflection
    (spheres : list Sphere) (lights : list Light)
    (origin direction : Vector) (t_min t_max : float) (depth : Z)
    (s : Sphere) (t : float) :
  ClosestIntersection spheres origin direction t_min t_max = (Some s, t) ->
  GoInt.in_range depth -> (0 < depth)%Z ->
  (0 <? reflective s) = true ->
  let local_color := local_shading Pow spheres lights origin direction s t in
  let R := ReflectRay (neg direction) (hit_normal origin direction s t) in
  let reflected_color :=
    TraceRay Pow spheres lights (hit_point origin direction t) R
             0.001 infinity (depth - 1) in
  TraceRay Pow spheres lights origin direction t_min t_max depth
    = AddColors (WeightColor local_color (1 - reflective s))
                (WeightColor reflected_color (reflective s)).
Proof.
  intros Hhit Hrange Hdepth Hr. cbv zeta.
  rewrite TraceRay_equation_1 at 1. rewrite Hhit. cbv zeta.
  destruct (sumbool_of_bool _) as [Hstop | _].
  - apply orb_true_iff in Hstop. destruct Hstop as [Hd | Hle].
    + apply Z.leb_le in Hd. lia.
    + apply ltb_not_leb in Hr. congruence.
  - unfold GoInt.sub. rewrite wrap_small
      by (unfold GoInt.in_range in *; lia).
    reflexivity.
Qed.

End TracerFacts.

(** Concrete runs on the test scene. *)

Lemma TraceRay_miss_is_background_witness :
  ClosestIntersection [TestScene.mirror] TestScene.eye TestScene.behind
    1 infinity = (None, infinity)
  /\ TraceRay TestScene.Pow_unreached [TestScene.mirror] TestScene.lights
       TestScene.eye TestScene.behind 1 infinity 3 = mkColor 0 0 0.
Proof.
  split; [reflexivity |].
  destruct (TraceRay_miss_is_background TestScene.Pow_unreached
              [TestScene.mirror] TestScene.lights TestScene.eye
              TestScene.behind 1 infinity 3 infinity eq_refl) as [H1 H2].
  rewrite H1. exact H2.
Defined.

Lemma TraceRay_local_only_witness :
  ClosestIntersection [TestScene.mirror] TestScene.eye TestScene.ahead
    1 infinity = (Some TestScene.mirror, 2)
  /\ TraceRay TestScene.Pow_unreached [TestScene.mirror] TestScene.lights
       TestScene.eye TestScene.ahead 1 infinity 0
     = local_shading TestScene.Pow_unreached [TestScene.mirror]
         TestScene.lights TestScene.eye TestScene.ahead TestScene.mirror 2.
Proof.
  split; [reflexivity |].
  apply (TraceRay_local_only TestScene.Pow_unreached [TestScene.mirror]
           TestScene.lights TestScene.eye TestScene.ahead 1 infinity 0
           TestScene.mirror 2 eq_refl).
  left. lia.
Defined.

Lemma TraceRay_reflection_witness :
  TraceRay TestScene.Pow_unreached [TestScene.half] TestScene.lights
    TestScene.eye TestScene.ahead 1 infinity 3
  = AddColors
      (WeightColor
         (local_shading TestScene.Pow_unreached [TestScene.half]
            TestScene.lights TestScene.eye TestScene.ahead TestScene.half 2)
         (1 - 0.5))
      (WeightColor
         (TraceRay TestScene.Pow_unreached [TestScene.half] TestScene.lights
            (hit_point TestScene.eye TestScene.ahead 2)
            (ReflectRay (neg TestScene.ahead)
               (hit_normal TestScene.eye TestScene.ahead TestScene.half 2))
            0.001 infinity (3 - 1))
         0.5).
Proof.
  apply (TraceRay_reflection TestScene.Pow_unreached [TestScene.half]
           TestScene.lights TestScene.eye TestScene.ahead 1 infinity 3
           TestScene.half 2 eq_refl).
  - unfold GoInt.in_range. lia.
  - lia.
  - reflexivity.
Defined.

(** The two boundary cases of C1 on the test scene: reflectivity 0 at
    depth 3, and depth 0 on a fully reflective sphere. *)
Example matte_depth_3 :
  TraceRay TestScene.Pow_unreached [TestScene.matte] TestScene.lights
    TestScene.eye TestScene.ahead 1 infinity 3
  = local_shading TestScene.Pow_unreached [TestScene.matte] TestScene.lights
      TestScene.eye TestScene.ahead TestScene.matte 2.
Proof. vm_compute. reflexivity. Qed.

Example mirror_depth_0 :
  TraceRay TestScene.Pow_unreached [TestScene.mirror] TestScene.lights
    TestScene.eye TestScene.ahead 1 infinity 0
  = mkColor 1 0 0.
Proof. vm_compute. reflexivity. Qed.

(** ** Colours *)

(** C7 (amended): every channel of a colour built by [MakeColor],
    [WeightColor] or [AddColors] lies in the interval from 0 to 1, unless
    the raw channel value (the argument, the product [c * w], the sum
    [c1 + c2]) is NaN; then the channel is NaN, as [math.Min] and
    [math.Max] return NaN on a NaN argument.  The raw value is not NaN, and
    so the channels stay in the interval, when [AddColors] is applied to two
    colours with channels in the interval and when [WeightColor] is applied
    to such a colour and a weight that is neither NaN nor infinite. *)
Theorem color_channels_clamped :
  (forall r0 g0 b0 : float,
     clamped r0 (r (MakeColor r0 g0 b0)) /\
     clamped g0 (g (MakeColor r0 g0 b0)) /\
     clamped b0 (b (MakeColor r0 g0 b0))) /\
  (forall (c : Color) (w : float),
     clamped (r c * w) (r (WeightColor c w)) /\
     clamped (g c * w) (g (WeightColor c w)) /\
     clamped (b c * w) (b (WeightColor c w))) /\
  (forall c1 c2 : Color,
     clamped (r c1 + r c2) (r (AddColors c1 c2)) /\
     clamped (g c1 + g c2) (g (AddColors c1 c2)) /\
     clamped (b c1 + b c2) (b (AddColors c1 c2))) /\
  (forall c1 c2 : Color,
     unit_channels c1 = true -> unit_channels c2 = true ->
     unit_channels (AddColors c1 c2) = true) /\
  (forall (c : Color) (w : float),
     unit_channels c = true -> degenerate w = false ->
     unit_channels (WeightColor c w) = true).
Proof.
  assert (HM : forall r0 g0 b0 : float,
     clamped r0 (r (MakeColor r0 g0 b0)) /\
     clamped g0 (g (MakeColor r0 g0 b0)) /\
     clamped b0 (b (MakeColor r0 g0 b0))).
  { intros. unfold clamped, MakeColor. cbn [r g b].
    repeat split; apply clamp_channel. }
  assert (HU : forall r0 g0 b0 : float,
     GoMath.IsNaN r0 = false -> GoMath.IsNaN g0 = false ->
     GoMath.IsNaN b0 = false -> unit_channels (MakeColor r0 g0 b0) = true).
  { intros r0 g0 b0 Hr Hg Hb. unfold unit_channels.
    destruct (HM r0 g0 b0) as ([-> _] & [-> _] & [-> _]).
    rewrite Hr, Hg, Hb. reflexivity. }
  split; [exact HM |]. split; [intros; apply HM |].
  split; [intros; apply HM |]. split.
  - intros c1 c2 H1 H2. unfold unit_channels in H1, H2.
    apply andb_true_iff in H1. destruct H1 as [H1 Hb1].
    apply andb_true_iff in H1. destruct H1 as [Hr1 Hg1].
    apply andb_true_iff in H2. destruct H2 as [H2 Hb2].
    apply andb_true_iff in H2. destruct H2 as [Hr2 Hg2].
    apply HU; apply add_unit_not_nan; assumption.
  - intros c w H1 Hw. unfold unit_channels in H1.
    apply andb_true_iff in H1. destruct H1 as [H1 Hb1].
    apply andb_true_iff in H1. destruct H1 as [Hr1 Hg1].
    apply HU; apply mul_unit_not_nan; assumption.
Qed.

Lemma color_channels_clamped_witness :
  unit_channels (AddColors (MakeColor 1 0 0) (MakeColor 1 1 0)) = true /\
  unit_channels (WeightColor (MakeColor 1 1 0) 0.5) = true.
Proof.
  destruct color_channels_clamped as (_ & _ & _ & HA & HW).
  split; [apply HA | apply HW]; reflexivity.
Defined.

(** C7 fails as stated: black is a colour with channels in the unit
    interval, and weighting it by [+infinity] gives NaN channels, since
    [0 * infinity] is NaN; so does building a colour from a NaN. *)
Lemma color_channel_nan :
  in_unit (r (MakeColor 0 0 0)) = true /\
  WeightColor (MakeColor 0 0 0) infinity = mkColor nan nan nan /\
  in_unit (r (WeightColor (MakeColor 0 0 0) infinity)) = false /\
  in_unit (r (MakeColor nan 0 0)) = false.
Proof. repeat split. Qed.

(** ** Normalising a vector of length zero *)

Section Normalize.
Import FloatOrder FloatOrderFacts.

(** A quotient by a zero is NaN or an infinity. *)
Lemma div_zero_degenerate (v l : float) :
  (l =? 0) = true -> degenerate (v / l) = true.
Proof.
  intros H. apply eqb_feq in H. destruct H as (_ & _ & Hk).
  unfold fkey in Hk. change (key (Prim2SF 0)) with (0, 0, 0)%Z in Hk.
  unfold degenerate, GoMath.IsNaN. rewrite !eqb_spec, div_spec.
  change (Prim2SF infinity) with (S754_infinity false).
  change (Prim2SF neg_infinity) with (S754_infinity true).
  destruct (Prim2SF l) as [sl | sl | | sl ml el];
    try (destruct sl; discriminate Hk); try discriminate Hk.
  destruct (Prim2SF v) as [sv | sv | | sv mv ev];
    try destruct sv; destruct sl; reflexivity.
Qed.

(** C8 (amended): [normalize] does not fail on a vector of length zero:
    float division by zero does not panic in Go.  Whenever [norm a == 0],
    every component of the vector returned to the caller is NaN or an
    infinity. *)
Theorem normalize_zero_length_degenerate (a : Vector) :
  (norm a =? 0) = true ->
  degenerate (x (normalize a)) = true /\
  degenerate (y (normalize a)) = true /\
  degenerate (z (normalize a)) = true.
Proof.
  intros H. unfold normalize. cbn [x y z MakeVector].
  repeat split; apply div_zero_degenerate; exact H.
Qed.

End Normalize.

Lemma normalize_zero_length_degenerate_witness :
  (norm TestScene.zero =? 0) = true /\
  degenerate (x (normalize TestScene.zero)) = true /\
  degenerate (y (normalize TestScene.zero)) = true /\
  degenerate (z (normalize TestScene.zero)) = true.
Proof.
  split; [reflexivity |].
  apply (normalize_zero_length_degenerate TestScene.zero). reflexivity.
Defined.

(** C8 fails as stated: the zero vector has length zero and [normalize]
    hands the vector [(NaN, NaN, NaN)] back to its caller; a vector whose
    squares underflow has length zero too and comes back with an infinite
    component. *)
Lemma normalize_zero_returns_nan :
  (norm (MakeVector 0 0 0) =? 0) = true /\
  normalize (MakeVector 0 0 0) = MakeVector nan nan nan /\
  (norm (MakeVector 0x1p-600 0 0) =? 0) = true /\
  normalize (MakeVector 0x1p-600 0 0) = MakeVector infinity nan nan.
Proof. repeat split. Qed.

(** ** Ray and sphere *)



(** ** Shadows *)

Section LightingFacts.

Variable Pow : float -> float -> float.

Lemma lighting_step_cases (spheres : list Sphere)
    (point normal reflection : Vector) (specular acc : float)
    (light : Light) :
  lighting_step Pow spheres point normal reflection specular acc light =
    if is_ambient light then acc + intensity light
    else
      let L := if String.eqb (kind light) "point"
               then sub (position light) point else direction light in
      let t_max := if String.eqb (kind light) "point" then 1 else infinity in
      match fst (ClosestIntersection spheres point L 0.001 t_max) with
      | Some _ => acc
      | None => diffuse_specular Pow normal reflection specular L light acc
      end.
Proof.
  unfold lighting_step, is_ambient, diffuse_specular, GoMath.Inf1.
  destruct (String.eqb (kind light) "ambient"); [reflexivity |].
  destruct (String.eqb (kind light) "point"); cbv zeta;
    destruct (ClosestIntersection _ _ _ _ _) as [[s |] t]; reflexivity.
Qed.

Lemma lighting_step_occluded (spheres : list Sphere)
    (point normal reflection : Vector) (specular acc : float)
    (light : Light) :
  occluded spheres point light = true ->
  lighting_step Pow spheres point normal reflection specular acc light = acc.
Proof.
  rewrite lighting_step_cases. unfold occluded, shadow_ray, is_ambient.
  destruct (String.eqb (kind light) "ambient"); [discriminate |].
  cbn [negb andb]. cbv zeta. unfold GoMath.Inf1.
  destruct (String.eqb (kind light) "point"); cbn [fst snd];
    destruct (fst (ClosestIntersection _ _ _ _ _)); congruence.
Qed.

Lemma fold_lighting_drop_occluded (spheres : list Sphere)
    (point normal reflection : Vector) (specular : float)
    (lights : list Light) :
  forall acc,
    fold_left (lighting_step Pow spheres point normal reflection specular)
      lights acc
    = fold_left (lighting_step Pow spheres point normal reflection specular)
        (filter (fun l => negb (occluded spheres point l)) lights) acc.
Proof.
  induction lights as [| l ls IH]; intros acc; [reflexivity |].
  cbn [fold_left filter].
  destruct (occluded spheres point l) eqn:E; cbn [negb].
  - rewrite lighting_step_occluded by exact E. apply IH.
  - cbn [fold_left]. apply IH.
Qed.

Lemma fold_lighting_ambient (spheres spheres' : list Sphere)
    (point normal reflection : Vector) (specular : float)
    (lights : list Light) :
  forall acc,
    fold_left (lighting_step Pow spheres point normal reflection specular)
      (filter is_ambient lights) acc
    = fold_left (lighting_step Pow spheres' point normal reflection specular)
        (filter is_ambient lights) acc.
Proof.
  induction lights as [| l ls IH]; intros acc; [reflexivity |].
  cbn [filter]. destruct (is_ambient l) eqn:E; [| apply IH].
  cbn [fold_left]. rewrite !lighting_step_cases, E. apply IH.
Qed.

(** C5: [Lighting] starts from 0 and goes through the lights in order.  To
    the intensity of the lights before it, an ambient light adds its
    intensity without any test.  For a point light the code runs
    [ClosestIntersection] from the shaded point along [position - point],
    not normalised, between [0.001] and [1]; for any other light along
    [direction] between [0.001] and [+infinity].  When that test finds a
    sphere the intensity is left as it is: the light adds neither its
    diffuse nor its specular term; otherwise both terms are added.  Hence
    [Lighting] is unchanged when the occluded lights are removed from the
    list, and the ambient lights add the same amount whatever the spheres
    are. *)
Theorem Lighting_shadow_test (spheres : list Sphere) (lights : list Light)
    (point normal reflection : Vector) (specular : float) :
  Lighting Pow spheres [] point normal reflection specular = 0 /\
  (forall light : Light,
     Lighting Pow spheres (lights ++ [light]) point normal reflection
       specular
     = let acc :=
         Lighting Pow spheres lights point normal reflection specular in
       if is_ambient light then acc + intensity light
       else
         let L := if String.eqb (kind light) "point"
                  then sub (position light) point else direction light in
         let t_max :=
           if String.eqb (kind light) "point" then 1 else infinity in
         match fst (ClosestIntersection spheres point L 0.001 t_max) with
         | Some _ => acc
         | None =>
             diffuse_specular Pow normal reflection specular L light acc
         end) /\
  (forall (acc : float) (light : Light),
     lighting_step Pow spheres point normal reflection specular acc light =
       if is_ambient light then acc + intensity light
       else
         let L := if String.eqb (kind light) "point"
                  then sub (position light) point else direction light in
         let t_max :=
           if String.eqb (kind light) "point" then 1 else infinity in
         match fst (ClosestIntersection spheres point L 0.001 t_max) with
         | Some _ => acc
         | None =>
             diffuse_specular Pow normal reflection specular L light acc
         end) /\
  Lighting Pow spheres lights point normal reflection specular
    = Lighting Pow spheres
        (filter (fun l => negb (occluded spheres point l)) lights)
        point normal reflection specular /\
  (forall spheres' : list Sphere,
     Lighting Pow spheres (filter is_ambient lights)
       point normal reflection specular
     = Lighting Pow spheres' (filter is_ambient lights)
         point normal reflection specular).
Proof.
  split; [reflexivity |]. split; [| split; [| split]].
  - intros light. cbv zeta. unfold Lighting.
    rewrite fold_left_app. cbn [fold_left]. apply lighting_step_cases.
  - intros. apply lighting_step_cases.
  - unfold Lighting. apply fold_lighting_drop_occluded.
  - intros. unfold Lighting. apply fold_lighting_ambient.
Qed.

End LightingFacts.

(** On the test scene, at a point behind the sphere as seen from the lamp:
    the ambient light adds its 0.5 to the initial 0, and the occluded lamp
    adds nothing to that. *)
Lemma Lighting_shadow_test_witness :
  Lighting TestScene.Pow_unreached [TestScene.mirror] [TestScene.ambient]
    (MakeVector 0 0 5) (MakeVector 0 0 (-1)) (MakeVector 0 0 1) (-1) = 0.5 /\
  Lighting TestScene.Pow_unreached [TestScene.mirror]
    [TestScene.ambient; TestScene.lamp]
    (MakeVector 0 0 5) (MakeVector 0 0 (-1)) (MakeVector 0 0 1) (-1) = 0.5.
Proof.
  destruct (Lighting_shadow_test TestScene.Pow_unreached [TestScene.mirror]
              [] (MakeVector 0 0 5) (MakeVector 0 0 (-1)) (MakeVector 0 0 1)
              (-1)) as (Hnil & Hamb & _).
  destruct (Lighting_shadow_test TestScene.Pow_unreached [TestScene.mirror]
              [TestScene.ambient] (MakeVector 0 0 5) (MakeVector 0 0 (-1))
              (MakeVector 0 0 1) (-1)) as (_ & Hlamp & _).
  specialize (Hamb TestScene.ambient). specialize (Hlamp TestScene.lamp).
  cbn [app] in Hamb, Hlamp. cbv zeta in Hamb, Hlamp.
  rewrite Hnil in Hamb.
  assert (E1 : Lighting TestScene.Pow_unreached [TestScene.mirror]
                 [TestScene.ambient] (MakeVector 0 0 5)
                 (MakeVector 0 0 (-1)) (MakeVector 0 0 1) (-1) = 0.5).
  { rewrite Hamb. reflexivity. }
  split; [exact E1 |].
  rewrite Hlamp, E1. reflexivity.
Defined.

(** A point light behind an occluding sphere: only the ambient light is
    left at the shaded point. *)
Example lamp_occluded :
  occluded [TestScene.mirror] (MakeVector 0 0 5) TestScene.lamp = true /\
  Lighting TestScene.Pow_unreached [TestScene.mirror] TestScene.lights
    (MakeVector 0 0 5) (MakeVector 0 0 (-1)) (MakeVector 0 0 1) (-1) = 0.5 /\
  Lighting TestScene.Pow_unreached [] TestScene.lights
    (MakeVector 0 0 5) (MakeVector 0 0 (-1)) (MakeVector 0 0 1) (-1) = 1.
Proof. vm_compute. repeat split. Qed.

(** ** The frame driver *)

Section DriverFacts.
Local Open Scope Z_scope.

Variable Pow : float -> float -> float.

Lemma In_int_range (lo hi k : Z) : In k (int_range lo hi) <-> lo <= k < hi.
Proof.
  unfold int_range. rewrite in_map_iff. split.
  - intros (n & <- & Hn). apply in_seq in Hn. lia.
  - intros Hk. exists (Z.to_nat (k - lo)). split; [lia |].
    apply in_seq. lia.
Qed.

Lemma length_int_range (lo hi : Z) :
  lo <= hi -> Z.of_nat (List.length (int_range lo hi)) = hi - lo.
Proof.
  intros H. unfold int_range. rewrite length_map, length_seq. lia.
Qed.

Lemma In_pixel_coords (x y : Z) :
  In (x, y) pixel_coords <->
  Z.quot (- Cw) 2 <= x < Z.quot Cw 2 /\ Z.quot (- Ch) 2 <= y < Z.quot Ch 2.
Proof.
  unfold pixel_coords. rewrite in_flat_map. split.
  - intros (x' & Hx & Hin). apply in_map_iff in Hin.
    destruct Hin as (y' & Heq & Hy). inversion Heq; subst.
    apply In_int_range in Hx. apply In_int_range in Hy. tauto.
  - intros [Hx Hy]. exists x. split; [apply In_int_range; exact Hx |].
    apply in_map. apply In_int_range. exact Hy.
Qed.

Lemma length_flat_map_const {A B : Type} (f : A -> list B) (n : nat)
    (l : list A) :
  (forall a, List.length (f a) = n) ->
  List.length (flat_map f l) = (List.length l * n)%nat.
Proof.
  intros Hf. induction l as [| a l IH]; [reflexivity |].
  cbn [flat_map List.length]. rewrite length_app, Hf, IH. lia.
Qed.

Lemma length_pixel_coords : Z.of_nat (List.length pixel_coords) = Cw * Ch.
Proof.
  unfold pixel_coords.
  rewrite (length_flat_map_const _
             (List.length (int_range (Z.quot (- Ch) 2) (Z.quot Ch 2))))
    by (intros; apply length_map).
  rewrite Nat2Z.inj_mul, !length_int_range by (vm_compute; discriminate).
  reflexivity.
Qed.

Lemma ChangeCoord2D_in_range (x y : Z) :
  Z.quot (- Cw) 2 <= x < Z.quot Cw 2 ->
  Z.quot (- Ch) 2 <= y < Z.quot Ch 2 ->
  ChangeCoord2D x y = (Z.quot Cw 2 + x, Z.quot Ch 2 - y).
Proof.
  change (Z.quot (- Cw) 2) with (-512). change (Z.quot Cw 2) with 512.
  change (Z.quot (- Ch) 2) with (-512). change (Z.quot Ch 2) with 512.
  intros Hx Hy. unfold ChangeCoord2D, GoInt.add, GoInt.sub.
  change (Z.quot Cw 2) with 512. change (Z.quot Ch 2) with 512.
  rewrite !wrap_small by (unfold GoInt.in_range; lia). reflexivity.
Qed.

Lemma wg_Add_returns (delta : Z) (c : Canvas) :
  0 <= wg c + delta -> delta <= 0 \/ wg c + delta <= int32_max ->
  wg_Add delta c = Some (mkCanvas (lock c) (wg c + delta) (ctx c)).
Proof.
  intros H0 H1. unfold wg_Add. cbv zeta.
  destruct (Z.ltb_spec (wg c + delta) 0) as [Hneg | _]; [lia |].
  destruct (Z.ltb_spec 0 delta) as [Hpos | _]; [| reflexivity].
  destruct (Z.ltb_spec int32_max (wg c + delta)) as [Hbig | _];
    [lia | reflexivity].
Qed.

Lemma wg_Add_panics (delta : Z) (c : Canvas) :
  wg c + delta < 0 \/ (0 < delta /\ int32_max < wg c + delta) ->
  wg_Add delta c = None.
Proof.
  intros H. unfold wg_Add. cbv zeta.
  destruct (Z.ltb_spec (wg c + delta) 0) as [_ | Hge]; [reflexivity |].
  destruct (Z.ltb_spec 0 delta) as [_ | Hle]; [| lia].
  destruct (Z.ltb_spec int32_max (wg c + delta)) as [_ | Hsmall];
    [reflexivity | lia].
Qed.

Lemma PutPixel_calls (c : Canvas) (x y : Z) (color : Color) :
  lock c = false -> 1 <= wg c ->
  PutPixel c x y color
  = Some (mkCanvas false (wg c - 1) (ctx c ++ pixel_calls (x, y) color)).
Proof.
  intros Hl Hw. unfold PutPixel, pixel_calls. cbn [fst snd].
  destruct (ChangeCoord2D x y) as [i j].
  unfold lock_Lock. rewrite Hl. cbn [bind].
  unfold lock_Unlock, ctx_call. cbn [lock wg ctx bind].
  unfold wg_Done. rewrite wg_Add_returns by (cbn [wg]; lia).
  cbn [lock wg ctx]. rewrite <- !app_assoc. reflexivity.
Qed.

Lemma draw_pixel_returns (spheres : list Sphere) (lights : list Light)
    (O : Vector) (c : Canvas) (xy : Z * Z) :
  lock c = false -> 0 <= wg c < int32_max ->
  draw_pixel Pow spheres lights O c xy
  = Some (mkCanvas false (wg c)
            (ctx c ++ pixel_calls xy (pixel_color Pow spheres lights O xy))).
Proof.
  intros Hl Hw. unfold draw_pixel, pixel_color. destruct xy as [x y].
  rewrite wg_Add_returns by lia.
  cbn [bind fst snd].
  rewrite PutPixel_calls by (cbn [lock wg]; first [assumption | lia]).
  cbn [wg ctx]. do 2 f_equal. lia.
Qed.

Lemma draw_scene_returns (spheres : list Sphere) (lights : list Light)
    (O : Vector) (coords : list (Z * Z)) :
  forall c, lock c = false -> 0 <= wg c < int32_max ->
    draw_scene Pow spheres lights O coords c
    = Some (mkCanvas false (wg c)
              (ctx c ++ flat_map
                 (fun xy => pixel_calls xy
                              (pixel_color Pow spheres lights O xy))
                 coords)).
Proof.
  induction coords as [| xy rest IH]; intros c Hl Hw.
  - cbn [draw_scene flat_map]. rewrite app_nil_r.
    destruct c as [l w k]. cbn in *. subst. reflexivity.
  - cbn [draw_scene flat_map]. rewrite draw_pixel_returns by assumption.
    cbn [bind]. rewrite IH by (cbn [lock wg]; auto).
    cbn [wg ctx]. rewrite <- app_assoc. reflexivity.
Qed.

End DriverFacts.

(** C10: on the loop ranges of the driver, [ChangeCoord2D x y] is exactly
    [(Cw/2 + x, Ch/2 - y)]; the column lies in [0, Cw - 1] and the row in
    [1, Ch], so row 0 is never produced; the coordinate [y = -Ch/2] is
    visited by the loop and maps to row [Ch], outside the rows [0 .. Ch - 1]
    of the canvas, and that is the row [PutPixel] hands to [SetPixel]. *)
Theorem ChangeCoord2D_rows_off_by_one (x y : Z) :
  (Z.quot (- Cw) 2 <= x < Z.quot Cw 2)%Z ->
  (Z.quot (- Ch) 2 <= y < Z.quot Ch 2)%Z ->
  In (x, y) pixel_coords /\
  ChangeCoord2D x y = (Z.quot Cw 2 + x, Z.quot Ch 2 - y)%Z /\
  (0 <= fst (ChangeCoord2D x y) <= Cw - 1)%Z /\
  (1 <= snd (ChangeCoord2D x y) <= Ch)%Z /\
  In (x, Z.quot (- Ch) 2) pixel_coords /\
  snd (ChangeCoord2D x (Z.quot (- Ch) 2)) = Ch /\
  in_canvas (ChangeCoord2D x (Z.quot (- Ch) 2)) = false /\
  (forall (c : Canvas) (color : Color),
     lock c = false -> (1 <= wg c)%Z ->
     exists c',
       PutPixel c x (Z.quot (- Ch) 2) color = Some c' /\
       In (SetPixel (Z.quot Cw 2 + x) Ch) (ctx c')).
Proof.
  intros Hx Hy.
  assert (Hy0 : (Z.quot (- Ch) 2 <= Z.quot (- Ch) 2 < Z.quot Ch 2)%Z)
    by (vm_compute; split; congruence).
  pose proof (ChangeCoord2D_in_range x y Hx Hy) as E.
  pose proof (ChangeCoord2D_in_range x _ Hx Hy0) as E0.
  assert (Erow : (Z.quot Ch 2 - Z.quot (- Ch) 2)%Z = Ch) by reflexivity.
  rewrite Erow in E0.
  change (Z.quot (- Cw) 2) with (-512)%Z in Hx.
  change (Z.quot (- Ch) 2) with (-512)%Z in Hy.
  change (Z.quot Cw 2) with 512%Z in Hx.
  change (Z.quot Ch 2) with 512%Z in Hy.
  split; [apply In_pixel_coords; split; assumption |].
  split; [exact E |].
  rewrite E, E0. cbn [fst snd].
  split; [change (Z.quot Cw 2) with 512%Z; change Cw with 1024%Z; lia |].
  split; [change (Z.quot Ch 2) with 512%Z; change Ch with 1024%Z; lia |].
  split; [apply In_pixel_coords; split; [assumption | exact Hy0] |].
  split; [reflexivity |].
  split.
  - unfold in_canvas. cbn [fst snd].
    rewrite andb_false_iff. right. reflexivity.
  - intros c color Hl Hw. eexists. split.
    + apply PutPixel_calls; assumption.
    + cbn [ctx]. apply in_or_app. right.
      unfold pixel_calls. cbn [fst snd]. rewrite E0. left. reflexivity.
Qed.

Lemma ChangeCoord2D_rows_off_by_one_witness :
  (Z.quot (- Cw) 2 <= 0 < Z.quot Cw 2)%Z /\
  (Z.quot (- Ch) 2 <= -512 < Z.quot Ch 2)%Z /\
  ChangeCoord2D 0 (-512) = (512, 1024)%Z /\
  in_canvas (ChangeCoord2D 0 (Z.quot (- Ch) 2)) = false.
Proof.
  assert (Hx : (Z.quot (- Cw) 2 <= 0 < Z.quot Cw 2)%Z)
    by (vm_compute; split; congruence).
  assert (Hy : (Z.quot (- Ch) 2 <= -512 < Z.quot Ch 2)%Z)
    by (vm_compute; split; congruence).
  destruct (ChangeCoord2D_rows_off_by_one 0 (-512) Hx Hy)
    as (_ & E & _ & _ & _ & _ & Hout & _).
  split; [exact Hx |]. split; [exact Hy |]. split; [exact E | exact Hout].
Defined.

Section MainFacts.

Variable Pow : float -> float -> float.

(** C9, as the code runs: line 158 calls the function literal in place, so
    the driver evaluates the pixels one after the other.  Whatever list of
    coordinates the loop has gone through, the wait group counter is back at
    0, the mutex is free and the drawing context has received the calls of
    those pixels in loop order.  [main] runs to its end: the counter is
    already 0 at the [Wait] of line 165, and the image is saved after the
    calls of all [Cw * Ch] pixels.  No unit of work is ever dispatched
    concurrently. *)
Theorem main_draws_pixels_one_by_one :
  let O := MakeVector 0 0 (-3) in
  let calls := fun xy : Z * Z =>
    pixel_calls xy (pixel_color Pow scene_spheres scene_lights O xy) in
  (forall coords : list (Z * Z),
     draw_scene Pow scene_spheres scene_lights O coords (mkCanvas false 0 [])
     = Some (mkCanvas false 0 (flat_map calls coords))) /\
  main Pow
  = Some (mkCanvas false 0 (flat_map calls pixel_coords ++ [SavePNG "out.png"]))
  /\ Z.of_nat (List.length pixel_coords) = (Cw * Ch)%Z.
Proof.
  cbv zeta. split; [| split].
  - intros coords. rewrite draw_scene_returns by (cbn [lock wg]; auto; vm_compute; split; congruence).
    reflexivity.
  - unfold main. rewrite draw_scene_returns by (cbn [lock wg]; auto; vm_compute; split; congruence).
    reflexivity.
  - apply length_pixel_coords.
Qed.

End MainFacts.

(** The first two pixels of the loop on the scene of [main]: the second
    pixel is dispatched on a canvas whose counter is 0 again. *)
Example first_two_pixels (Pow : float -> float -> float) :
  exists c1 c2,
    draw_pixel Pow scene_spheres scene_lights
      (MakeVector 0 0 (-3)) (mkCanvas false 0 []) (-512, -512)%Z = Some c1 /\
    wg c1 = 0%Z /\ lock c1 = false /\
    draw_pixel Pow scene_spheres scene_lights
      (MakeVector 0 0 (-3)) c1 (-512, -511)%Z = Some c2 /\
    wg c2 = 0%Z /\
    map (fun k => match k with SetPixel i j => Some (i, j) | _ => None end)
        (ctx c2)
    = [Some (0, 1024)%Z; None; None; Some (0, 1023)%Z; None; None].
Proof.
  eexists. eexists.
  rewrite draw_pixel_returns by (cbn [lock wg]; auto; vm_compute; split; congruence).
  split; [reflexivity |]. cbn [wg lock ctx].
  rewrite draw_pixel_returns by (cbn [lock wg]; auto; vm_compute; split; congruence).
  repeat split.
Qed.

(** ** The nearest intersection *)

Section ClosestFacts.
Import FloatOrderFacts.

Variables (origin direction : Vector) (t_min t_max : float).

Lemma closest_step_try_root (st : option Sphere * float) (s : Sphere) :
  closest_step origin direction t_min t_max st s
  = try_root t_min t_max
      (try_root t_min t_max st s
         (fst (IntersectRaySphere origin direction s)))
      s (snd (IntersectRaySphere origin direction s)).
Proof.
  unfold closest_step, try_root.
  destruct (IntersectRaySphere origin direction s) as [t1 t2].
  reflexivity.
Qed.

Lemma valid_root_iff (t : float) :
  valid_root t_min t_max t = true <->
  (t_min <=? t) = true /\ (t <? t_max) = true.
Proof. unfold valid_root. apply andb_true_iff. Qed.

(** One test of the loop keeps the invariant, when the sphere tested is not
    before those already seen. *)
Lemma try_root_inv (seen : list (nat * Sphere * float))
    (st : option Sphere * float) (i : nat) (s : Sphere) (t : float) :
  scan_inv t_min t_max seen st ->
  (forall j s' t', In (j, s', t') seen -> (j <= i)%nat) ->
  scan_inv t_min t_max (seen ++ [(i, s, t)]) (try_root t_min t_max st s t).
Proof.
  intros Hinv Hidx. unfold try_root.
  destruct st as [[s0 |] t0]; cbn [snd scan_inv] in *.
  - destruct Hinv as (i0 & Hin0 & Hv0 & Hmin).
    apply valid_root_iff in Hv0. destruct Hv0 as [Hlo0 Hhi0].
    destruct ((t <? t0) && (t_min <=? t) && (t <=? t_max)) eqn:Hc.
    + apply andb_true_iff in Hc. destruct Hc as [Hc Hle].
      apply andb_true_iff in Hc. destruct Hc as [Hlt Hlo].
      exists i. split; [apply in_or_app; right; left; reflexivity |].
      split; [apply valid_root_iff; split;
              [exact Hlo | exact (ltb_trans _ _ _ Hlt Hhi0)] |].
      intros j s' t' Hin Hv. apply in_app_or in Hin.
      destruct Hin as [Hin | [Heq | []]].
      * destruct (Hmin _ _ _ Hin Hv) as [Hle0 _].
        pose proof (ltb_leb_trans _ _ _ Hlt Hle0) as Hlt'.
        split; [apply ltb_leb; exact Hlt' | intros _; exact Hlt'].
      * inversion Heq; subst. split; [| lia].
        rewrite leb_refl_iff. apply negb_true_iff. forder.
    + exists i0. split; [apply in_or_app; left; exact Hin0 |].
      split; [apply valid_root_iff; split; assumption |].
      intros j s' t' Hin Hv. apply in_app_or in Hin.
      destruct Hin as [Hin | [Heq | []]]; [exact (Hmin _ _ _ Hin Hv) |].
      inversion Heq; subst. apply valid_root_iff in Hv.
      destruct Hv as [Hlo Hhi].
      pose proof (Hidx _ _ _ Hin0) as Hi0.
      split; [| lia].
      rewrite (ltb_leb _ _ Hhi), Hlo, !andb_true_r in Hc.
      exact (not_ltb_leb _ _ _ _ Hlo Hhi0 Hc).
  - destruct Hinv as [-> Hnone].
    destruct ((t <? t_max) && (t_min <=? t) && (t <=? t_max)) eqn:Hc.
    + apply andb_true_iff in Hc. destruct Hc as [Hc Hle].
      apply andb_true_iff in Hc. destruct Hc as [Hlt Hlo].
      exists i. split; [apply in_or_app; right; left; reflexivity |].
      split; [apply valid_root_iff; split; assumption |].
      intros j s' t' Hin Hv. apply in_app_or in Hin.
      destruct Hin as [Hin | [Heq | []]].
      * rewrite (Hnone _ _ _ Hin) in Hv. discriminate.
      * inversion Heq; subst. split; [| lia].
        rewrite leb_refl_iff. apply negb_true_iff. forder.
    + split; [reflexivity |].
      intros j s' t' Hin. apply in_app_or in Hin.
      destruct Hin as [Hin | [Heq | []]]; [exact (Hnone _ _ _ Hin) |].
      inversion Heq; subst.
      destruct (valid_root t_min t_max t') eqn:Hv; [| reflexivity].
      apply valid_root_iff in Hv. destruct Hv as [Hlo Hhi].
      rewrite Hhi, Hlo, (ltb_leb _ _ Hhi) in Hc. discriminate.
Qed.

Lemma scan_keeps_inv (rest : list Sphere) :
  forall (i : nat) (seen : list (nat * Sphere * float))
         (st : option Sphere * float),
    scan_inv t_min t_max seen st ->
    (forall j s' t', In (j, s', t') seen -> (j < i)%nat) ->
    scan_inv t_min t_max (seen ++ candidates origin direction i rest)
      (fold_left (closest_step origin direction t_min t_max) rest st).
Proof.
  induction rest as [| s rest IH]; intros i seen st Hinv Hidx.
  - cbn [candidates fold_left]. rewrite app_nil_r. exact Hinv.
  - cbn [candidates fold_left]. rewrite closest_step_try_root.
    set (t1 := fst (IntersectRaySphere origin direction s)).
    set (t2 := snd (IntersectRaySphere origin direction s)).
    replace (seen ++ (i, s, t1) :: (i, s, t2)
                  :: candidates origin direction (S i) rest)
      with (((seen ++ [(i, s, t1)]) ++ [(i, s, t2)])
              ++ candidates origin direction (S i) rest)
      by (rewrite <- !app_assoc; reflexivity).
    apply IH.
    + apply try_root_inv; [apply try_root_inv |].
      * exact Hinv.
      * intros j s' t' Hin. apply Hidx in Hin. lia.
      * intros j s' t' Hin. apply in_app_or in Hin.
        destruct Hin as [Hin | [Heq | []]];
          [apply Hidx in Hin; lia | inversion Heq; lia].
    + intros j s' t' Hin. apply in_app_or in Hin.
      destruct Hin as [Hin | [Heq | []]]; [| inversion Heq; lia].
      apply in_app_or in Hin.
      destruct Hin as [Hin | [Heq | []]];
        [apply Hidx in Hin; lia | inversion Heq; lia].
Qed.

Lemma In_candidates (spheres : list Sphere) :
  forall (i j : nat) (s : Sphere) (t : float),
    In (j, s, t) (candidates origin direction i spheres) <->
    exists k, j = (i + k)%nat /\ nth_error spheres k = Some s /\
              In t (roots origin direction s).
Proof.
  induction spheres as [| s0 rest IH]; intros i j s t.
  - cbn [candidates In]. split; [tauto |].
    intros (k & _ & Hk & _). destruct k; discriminate.
  - cbn [candidates In]. rewrite IH. unfold roots.
    destruct (IntersectRaySphere origin direction s0) as [t1 t2] eqn:E0.
    cbn [fst snd]. split.
    + intros [Heq | [Heq | (k & -> & Hk & Ht)]].
      * inversion Heq; subst. exists 0%nat.
        rewrite E0. cbn. split; [lia | auto].
      * inversion Heq; subst. exists 0%nat.
        rewrite E0. cbn. split; [lia | auto].
      * exists (S k). cbn [nth_error]. split; [lia | auto].
    + intros (k & -> & Hk & Ht). destruct k as [| k]; cbn [nth_error] in Hk.
      * inversion Hk; subst. rewrite E0 in Ht.
        destruct Ht as [<- | [<- | []]];
          [left | right; left]; f_equal; f_equal; lia.
      * right. right. exists k. split; [lia | auto].
Qed.

End ClosestFacts.

(** C3: [ClosestIntersection] returns the sphere holding the smallest root
    [t] with [t_min <= t] and [t < t_max], together with that root; among
    spheres reaching that smallest root the first of the list is returned,
    as the roots in range of all spheres before it are strictly larger; and
    it returns no sphere, with the distance [t_max], exactly when no sphere
    has a root in the range. *)
Theorem ClosestIntersection_smallest_root (spheres : list Sphere)
    (origin direction : Vector) (t_min t_max : float) :
  closest_spec origin direction t_min t_max spheres
    (ClosestIntersection spheres origin direction t_min t_max)
  /\ (fst (ClosestIntersection spheres origin direction t_min t_max) = None
      <-> forall s t', In s spheres -> In t' (roots origin direction s) ->
                       valid_root t_min t_max t' = false).
Proof.
  assert (Hspec : closest_spec origin direction t_min t_max spheres
            (ClosestIntersection spheres origin direction t_min t_max)).
  { pose proof (scan_keeps_inv origin direction t_min t_max spheres 0 []
                  (None, t_max)) as H.
    cbn [app] in H. unfold ClosestIntersection.
    assert (H0 : scan_inv t_min t_max [] (None, t_max)).
    { split; [reflexivity | intros j s' t' []]. }
    specialize (H H0 (fun j s' t' (F : In (j, s', t') []) =>
                        match F with end)).
    destruct (fold_left _ spheres (None, t_max)) as [[s |] t];
      cbn [scan_inv closest_spec] in *.
    - destruct H as (i & Hin & Hv & Hmin).
      apply In_candidates in Hin. destruct Hin as (k & -> & Hk & Ht).
      exists k. split; [exact Hk |]. split; [exact Ht |].
      split; [exact Hv |].
      intros j s' t' Hj Ht' Hv'.
      apply (Hmin j s' t'); [| exact Hv'].
      apply In_candidates. exists j. auto.
    - destruct H as [-> Hnone]. split; [reflexivity |].
      intros s t' Hs Ht. apply In_nth_error in Hs. destruct Hs as [k Hk].
      apply (Hnone k s t'). apply In_candidates. exists k. auto. }
  split; [exact Hspec |].
  destruct (ClosestIntersection spheres origin direction t_min t_max)
    as [[s |] t]; cbn [fst closest_spec] in *.
  - split; [discriminate |]. intros Hnone.
    destruct Hspec as (i & Hi & Ht & Hv & _).
    apply nth_error_In in Hi. rewrite (Hnone _ _ Hi Ht) in Hv. discriminate.
  - split; [intros _; apply Hspec | reflexivity].
Qed.

(** * Further properties of the code *)

(** ** The scan for the nearest intersection *)

Section ClosestMore.
Import FloatOrder FloatOrderFacts.

Lemma closest_spec_holds (spheres : list Sphere)
    (origin direction : Vector) (t_min t_max : float) :
  closest_spec origin direction t_min t_max spheres
    (ClosestIntersection spheres origin direction t_min t_max).
Proof.
  pose proof (scan_keeps_inv origin direction t_min t_max spheres 0 []
                (None, t_max)) as H.
  cbn [app] in H. unfold ClosestIntersection.
  assert (H0 : scan_inv t_min t_max [] (None, t_max)).
  { split; [reflexivity | intros j s' t' []]. }
  specialize (H H0 (fun j s' t' (F : In (j, s', t') []) =>
                      match F with end)).
  destruct (fold_left _ spheres (None, t_max)) as [[s |] t];
    cbn [scan_inv closest_spec] in *.
  - destruct H as (i & Hin & Hv & Hmin).
    apply In_candidates in Hin. destruct Hin as (k & -> & Hk & Ht).
    exists k. split; [exact Hk |]. split; [exact Ht |].
    split; [exact Hv |].
    intros j s' t' Hj Ht' Hv'.
    apply (Hmin j s' t'); [| exact Hv'].
    apply In_candidates. exists j. auto.
  - destruct H as [-> Hnone]. split; [reflexivity |].
    intros s t' Hs Ht. apply In_nth_error in Hs. destruct Hs as [k Hk].
    apply (Hnone k s t'). apply In_candidates. exists k. auto.
Qed.

Lemma ltb_infinity_l (v : float) : (infinity <? v) = false.
Proof.
  rewrite ltb_spec. change (Prim2SF infinity) with (S754_infinity false).
  destruct (Prim2SF v) as [s | s | | s m e]; try destruct s; reflexivity.
Qed.

Lemma closest_step_misses (origin direction : Vector) (t_min t_max : float)
    (st : option Sphere * float) (s : Sphere) :
  misses origin direction s = true ->
  closest_step origin direction t_min t_max st s = st.
Proof.
  unfold misses, discriminant, closest_step, IntersectRaySphere.
  cbv zeta. intros ->. unfold GoMath.Inf1.
  rewrite ltb_infinity_l. cbn [andb]. rewrite ltb_infinity_l. reflexivity.
Qed.

(** X1: a sphere the ray passes by (negative discriminant) never takes part
    in the scan, whatever the bounds are, [t_max = +infinity] included: the
    result is the one on the list without those spheres. *)
Theorem ClosestIntersection_drops_missed_spheres (spheres : list Sphere)
    (origin direction : Vector) (t_min t_max : float) :
  ClosestIntersection spheres origin direction t_min t_max
  = ClosestIntersection
      (filter (fun s => negb (misses origin direction s)) spheres)
      origin direction t_min t_max.
Proof.
  unfold ClosestIntersection. generalize (@None Sphere, t_max).
  induction spheres as [| s rest IH]; intros st; [reflexivity |].
  cbn [fold_left filter].
  destruct (misses origin direction s) eqn:E; cbn [negb].
  - rewrite closest_step_misses by exact E. apply IH.
  - cbn [fold_left]. apply IH.
Qed.

(** X2: with a NaN for either bound no sphere is ever returned, and the
    distance returned is [t_max] itself. *)
Theorem ClosestIntersection_nan_bound (spheres : list Sphere)
    (origin direction : Vector) (t_min t_max : float) :
  GoMath.IsNaN t_min = true \/ GoMath.IsNaN t_max = true ->
  ClosestIntersection spheres origin direction t_min t_max = (None, t_max).
Proof.
  intros Hnan.
  pose proof (closest_spec_holds spheres origin direction t_min t_max) as H.
  destruct (ClosestIntersection spheres origin direction t_min t_max)
    as [[s |] t]; cbn [closest_spec] in H.
  - destruct H as (i & _ & _ & Hv & _). apply valid_root_iff in Hv.
    destruct Hv as [Hlo Hhi]. exfalso. destruct Hnan as [Hn | Hn]; forder.
  - destruct H as [-> _]. reflexivity.
Qed.

Lemma closest_incl (l1 l2 : list Sphere)
    (origin direction : Vector) (t_min t_max : float)
    (s1 : Sphere) (t1 : float) :
  incl l1 l2 ->
  ClosestIntersection l1 origin direction t_min t_max = (Some s1, t1) ->
  exists s2 t2,
    ClosestIntersection l2 origin direction t_min t_max = (Some s2, t2) /\
    (t2 <=? t1) = true.
Proof.
  intros Hincl H1.
  pose proof (closest_spec_holds l1 origin direction t_min t_max) as S1.
  pose proof (closest_spec_holds l2 origin direction t_min t_max) as S2.
  rewrite H1 in S1. cbn [closest_spec] in S1.
  destruct S1 as (i & Hi & Hroot & Hv & _).
  apply nth_error_In in Hi. apply Hincl in Hi.
  destruct (ClosestIntersection l2 origin direction t_min t_max)
    as [[s2 |] t2]; cbn [closest_spec] in S2.
  - exists s2, t2. split; [reflexivity |].
    destruct S2 as (j & _ & _ & _ & Hmin).
    apply In_nth_error in Hi. destruct Hi as [k Hk].
    apply (Hmin k s1 t1 Hk Hroot Hv).
  - destruct S2 as [_ Hnone]. rewrite (Hnone s1 t1 Hi Hroot) in Hv.
    discriminate.
Qed.

(** X3: more spheres can only bring the hit closer.  When every sphere of
    [l1] is also in [l2] and the scan of [l1] finds a sphere at distance
    [t1], the scan of [l2] finds one too, at a distance [t2 <= t1]. *)
Theorem ClosestIntersection_more_spheres (l1 l2 : list Sphere)
    (origin direction : Vector) (t_min t_max : float)
    (s1 : Sphere) (t1 : float) :
  incl l1 l2 ->
  ClosestIntersection l1 origin direction t_min t_max = (Some s1, t1) ->
  exists s2 t2,
    ClosestIntersection l2 origin direction t_min t_max = (Some s2, t2) /\
    (t2 <=? t1) = true.
Proof.
  intros Hincl H1.
  pose proof (closest_spec_holds l1 origin direction t_min t_max) as S1.
  pose proof (closest_spec_holds l2 origin direction t_min t_max) as S2.
  rewrite H1 in S1. cbn [closest_spec] in S1.
  destruct S1 as (i & Hi & Hroot & Hv & _).
  apply nth_error_In in Hi. apply Hincl in Hi.
  destruct (ClosestIntersection l2 origin direction t_min t_max)
    as [[s2 |] t2]; cbn [closest_spec] in S2.
  - exists s2, t2. split; [reflexivity |].
    destruct S2 as (j & _ & _ & _ & Hmin).
    apply In_nth_error in Hi. destruct Hi as [k Hk].
    apply (Hmin k s1 t1 Hk Hroot Hv).
  - destruct S2 as [_ Hnone]. rewrite (Hnone s1 t1 Hi Hroot) in Hv.
    discriminate.
Qed.

(** X4: the outcome does not depend on the order of the spheres, nor on
    repetitions: two lists with the same members either both give no
    sphere, or give distances that are equal as floats ([==]). *)
Theorem ClosestIntersection_same_members (l1 l2 : list Sphere)
    (origin direction : Vector) (t_min t_max : float) :
  incl l1 l2 -> incl l2 l1 ->
  match ClosestIntersection l1 origin direction t_min t_max,
        ClosestIntersection l2 origin direction t_min t_max with
  | (None, t1), (None, t2) => t1 = t2
  | (Some _, t1), (Some _, t2) => (t1 =? t2) = true
  | _, _ => False
  end.
Proof.
  intros H12 H21.
  destruct (ClosestIntersection l1 origin direction t_min t_max)
    as [[s1 |] t1] eqn:E1;
  destruct (ClosestIntersection l2 origin direction t_min t_max)
    as [[s2 |] t2] eqn:E2.
  - destruct (closest_incl
                l1 l2 origin direction t_min t_max s1 t1 H12 E1)
      as (s & t & E & Hle).
    rewrite E2 in E. inversion E; subst.
    destruct (closest_incl
                l2 l1 origin direction t_min t_max s t H21 E2)
      as (s' & t' & E' & Hle').
    rewrite E1 in E'. inversion E'; subst. forder.
  - destruct (closest_incl
                l1 l2 origin direction t_min t_max s1 t1 H12 E1)
      as (s & t & E & _).
    rewrite E2 in E. discriminate.
  - destruct (closest_incl
                l2 l1 origin direction t_min t_max s2 t2 H21 E2)
      as (s & t & E & _).
    rewrite E1 in E. discriminate.
  - pose proof (closest_spec_holds l1 origin direction t_min t_max) as S1.
    pose proof (closest_spec_holds l2 origin direction t_min t_max) as S2.
    rewrite E1 in S1. rewrite E2 in S2. cbn [closest_spec] in *.
    destruct S1 as [-> _]. destruct S2 as [-> _]. reflexivity.
Qed.

End ClosestMore.

Lemma ClosestIntersection_nan_bound_witness :
  ClosestIntersection [TestScene.mirror] TestScene.eye TestScene.ahead
    nan infinity = (None, infinity).
Proof.
  apply (ClosestIntersection_nan_bound [TestScene.mirror] TestScene.eye
           TestScene.ahead nan infinity).
  left. reflexivity.
Defined.

Lemma ClosestIntersection_more_spheres_witness :
  ClosestIntersection [TestScene2.far] TestScene.eye TestScene.ahead
    1 infinity = (Some TestScene2.far, 9) /\
  exists s2 t2,
    ClosestIntersection [TestScene2.far; TestScene.mirror] TestScene.eye
      TestScene.ahead 1 infinity = (Some s2, t2) /\
    (t2 <=? 9) = true.
Proof.
  split; [reflexivity |].
  apply (ClosestIntersection_more_spheres [TestScene2.far]
           [TestScene2.far; TestScene.mirror] TestScene.eye TestScene.ahead
           1 infinity TestScene2.far 9).
  - intros s [<- | []]. left. reflexivity.
  - reflexivity.
Defined.

Lemma ClosestIntersection_same_members_witness :
  match ClosestIntersection [TestScene2.far; TestScene.mirror]
          TestScene.eye TestScene.ahead 1 infinity,
        ClosestIntersection
          [TestScene.mirror; TestScene2.far; TestScene.mirror]
          TestScene.eye TestScene.ahead 1 infinity with
  | (None, t1), (None, t2) => t1 = t2
  | (Some _, t1), (Some _, t2) => (t1 =? t2) = true
  | _, _ => False
  end.
Proof.
  apply (ClosestIntersection_same_members
           [TestScene2.far; TestScene.mirror]
           [TestScene.mirror; TestScene2.far; TestScene.mirror]
           TestScene.eye TestScene.ahead 1 infinity).
  - intros s [<- | [<- | []]]; simpl; auto.
  - intros s [<- | [<- | [<- | []]]]; simpl; auto.
Defined.

(** ** The tracer and the shading *)

Section TracerMore.
Import FloatOrderFacts.

Variable Pow : float -> float -> float.

Lemma MakeColor_unit_or_nan (r0 g0 b0 : float) :
  unit_or_nan (r (MakeColor r0 g0 b0)) = true /\
  unit_or_nan (g (MakeColor r0 g0 b0)) = true /\
  unit_or_nan (b (MakeColor r0 g0 b0)) = true.
Proof.
  unfold unit_or_nan, MakeColor. cbn [r g b].
  repeat split;
    match goal with
    | |- context [GoMath.Max (GoMath.Min ?v 1) 0] =>
        destruct (clamp_channel v) as [-> ->]
    end; apply orb_negb_l.
Qed.

(** X5: whatever the scene, the ray, the bounds and the depth, every
    channel of the colour [TraceRay] returns is in the interval from 0 to 1
    or is NaN; it is never below 0, above 1 or infinite. *)
Theorem TraceRay_channels_unit_or_nan
    (spheres : list Sphere) (lights : list Light)
    (origin direction : Vector) (t_min t_max : float) (depth : Z) :
  let c := TraceRay Pow spheres lights origin direction t_min t_max depth in
  unit_or_nan (r c) = true /\ unit_or_nan (g c) = true /\
  unit_or_nan (b c) = true.
Proof.
  cbv zeta. rewrite TraceRay_equation_1.
  destruct (ClosestIntersection spheres origin direction t_min t_max)
    as [[s |] t]; [| apply MakeColor_unit_or_nan].
  cbv zeta. destruct (sumbool_of_bool _);
    unfold WeightColor, AddColors; apply MakeColor_unit_or_nan.
Qed.

(** X6: in a scene where no sphere has a reflectivity above 0, the
    recursion depth is of no effect: every depth gives the same colour. *)
Theorem TraceRay_matte_scene_any_depth
    (spheres : list Sphere) (lights : list Light)
    (origin direction : Vector) (t_min t_max : float) (depth depth' : Z) :
  (forall s, In s spheres -> (reflective s <=? 0) = true) ->
  TraceRay Pow spheres lights origin direction t_min t_max depth
  = TraceRay Pow spheres lights origin direction t_min t_max depth'.
Proof.
  intros Hmatte.
  rewrite (TraceRay_equation_1 Pow spheres lights origin direction
             t_min t_max depth),
          (TraceRay_equation_1 Pow spheres lights origin direction
             t_min t_max depth').
  pose proof (closest_spec_holds spheres origin direction t_min t_max) as S.
  destruct (ClosestIntersection spheres origin direction t_min t_max)
    as [[s |] t]; [| reflexivity].
  cbn [closest_spec] in S. destruct S as (i & Hi & _).
  apply nth_error_In in Hi. apply Hmatte in Hi. cbv zeta.
  destruct (sumbool_of_bool _) as [_ | H1];
    [| rewrite Hi, orb_true_r in H1; discriminate].
  destruct (sumbool_of_bool _) as [_ | H2];
    [reflexivity | rewrite Hi, orb_true_r in H2; discriminate].
Qed.

Lemma lighting_step_no_specular (Pow' : float -> float -> float)
    (spheres : list Sphere) (point normal reflection reflection' : Vector)
    (acc : float) (light : Light) :
  lighting_step Pow spheres point normal reflection (-1) acc light
  = lighting_step Pow' spheres point normal reflection' (-1) acc light.
Proof.
  unfold lighting_step.
  destruct (String.eqb (kind light) "ambient"); [reflexivity |].
  destruct (String.eqb (kind light) "point");
    destruct (ClosestIntersection _ _ _ _ _) as [[s |] t]; reflexivity.
Qed.

(** X7: the specular exponent [-1] switches the specular term off: the
    intensity then depends neither on [math.Pow] nor on the view vector. *)
Theorem Lighting_specular_off (Pow' : float -> float -> float)
    (spheres : list Sphere) (lights : list Light)
    (point normal reflection reflection' : Vector) :
  Lighting Pow spheres lights point normal reflection (-1)
  = Lighting Pow' spheres lights point normal reflection' (-1).
Proof.
  unfold Lighting. generalize 0%float.
  induction lights as [| l ls IH]; intros acc; [reflexivity |].
  cbn [fold_left].
  rewrite (lighting_step_no_specular Pow' spheres point normal reflection
             reflection' acc l).
  apply IH.
Qed.

Lemma lighting_step_as_read (spheres : list Sphere)
    (point normal reflection : Vector) (specular acc : float)
    (light : Light) :
  lighting_step Pow spheres point normal reflection specular acc light
  = lighting_step Pow spheres point normal reflection specular acc
      (as_read light).
Proof.
  unfold as_read.
  destruct (String.eqb (kind light) "ambient") eqn:Ea;
    [| destruct (String.eqb (kind light) "point") eqn:Ep];
    unfold lighting_step, MakeLight;
    cbn [kind intensity position direction];
    rewrite ?Ea, ?Ep; reflexivity.
Qed.

(** X8: the kind of a light is compared as a string, and a light is read
    only through the fields of its branch.  A light whose kind is neither
    ["ambient"] nor ["point"], whatever its spelling, is shaded as the
    directional light of the same intensity and direction, and its position
    is not read; the direction of a point light and both vectors of an
    ambient light are not read either: [Lighting] is unchanged when each
    light is replaced by [as_read] of it. *)
Theorem Lighting_unknown_kind_is_directional
    (spheres : list Sphere) (lights : list Light)
    (point normal reflection : Vector) (specular : float) :
  Lighting Pow spheres lights point normal reflection specular
  = Lighting Pow spheres (map as_read lights) point normal reflection
      specular.
Proof.
  unfold Lighting. generalize 0%float.
  induction lights as [| l ls IH]; intros acc; [reflexivity |].
  cbn [fold_left map]. rewrite <- lighting_step_as_read. apply IH.
Qed.

End TracerMore.

Lemma TraceRay_matte_scene_any_depth_witness :
  TraceRay TestScene.Pow_unreached [TestScene.matte; TestScene2.far]
    TestScene.lights TestScene.eye TestScene.ahead 1 infinity 0
  = TraceRay TestScene.Pow_unreached [TestScene.matte; TestScene2.far]
      TestScene.lights TestScene.eye TestScene.ahead 1 infinity 7.
Proof.
  apply (TraceRay_matte_scene_any_depth TestScene.Pow_unreached
           [TestScene.matte; TestScene2.far] TestScene.lights TestScene.eye
           TestScene.ahead 1 infinity 0 7).
  intros s [<- | [<- | []]]; reflexivity.
Defined.

(** A light of kind ["spot"] lights the sphere like the directional light
    of the same direction. *)
Example spot_is_directional :
  as_read TestScene2.spot
  = MakeLight "directional" 0.5 (MakeVector 0 0 0) (MakeVector 0 0 (-1)) /\
  as_read (MakeLight "Point" 0.5 (MakeVector 7 7 7) (MakeVector 0 0 (-1)))
  = MakeLight "directional" 0.5 (MakeVector 0 0 0) (MakeVector 0 0 (-1)) /\
  Lighting TestScene.Pow_unreached [TestScene.mirror] [TestScene2.spot]
    (MakeVector 0 0 2) (MakeVector 0 0 (-1)) (MakeVector 0 0 (-1)) (-1)
  = 0.5.
Proof. vm_compute. repeat split. Qed.

(** ** The canvas and the driver *)

Section DriverMore.
Local Open Scope Z_scope.

Variable Pow : float -> float -> float.

Lemma PutPixel_blocks_or_panics (c : Canvas) (x y : Z) (color : Color) :
  lock c = true \/ wg c < 1 -> PutPixel c x y color = None.
Proof.
  intros H. unfold PutPixel. destruct (ChangeCoord2D x y) as [i j].
  unfold lock_Lock. destruct (lock c) eqn:Hl; [reflexivity |].
  destruct H as [H | H]; [discriminate |]. cbn [bind].
  unfold lock_Unlock, ctx_call. cbn [lock wg ctx bind].
  unfold wg_Done. apply wg_Add_panics. cbn [wg]. lia.
Qed.

(** X9: [PutPixel] returns only when the mutex is free and the wait group
    counter is at least 1; it then releases the mutex, lowers the counter by
    one and has called [SetPixel], [SetRGB] and [Fill] in that order, so the
    pixel is set before the colour of the call is selected.  On a held mutex
    it blocks, and on a counter below 1 the deferred [Done] panics. *)
Theorem PutPixel_outcome (c : Canvas) (x y : Z) (color : Color) :
  PutPixel c x y color
  = if negb (lock c) && (1 <=? wg c)
    then Some (mkCanvas false (wg c - 1)
                 (ctx c ++ pixel_calls (x, y) color))
    else None.
Proof.
  destruct (lock c) eqn:Hl; cbn [negb andb].
  - apply PutPixel_blocks_or_panics. left. exact Hl.
  - destruct (Z.leb_spec 1 (wg c)) as [Hw | Hw].
    + apply PutPixel_calls; assumption.
    + apply PutPixel_blocks_or_panics. right. exact Hw.
Qed.

Lemma draw_pixel_fails (spheres : list Sphere) (lights : list Light)
    (O : Vector) (c : Canvas) (xy : Z * Z) :
  negb (lock c) && (0 <=? wg c) && (wg c <? int32_max) = false ->
  draw_pixel Pow spheres lights O c xy = None.
Proof.
  intros H. unfold draw_pixel. destruct xy as [x y].
  destruct (Z_lt_le_dec (wg c + 1) 0) as [Hneg | Hge];
    [rewrite wg_Add_panics by lia; reflexivity |].
  destruct (Z_lt_le_dec int32_max (wg c + 1)) as [Hbig | Hsmall];
    [rewrite wg_Add_panics by lia; reflexivity |].
  rewrite wg_Add_returns by lia. cbn [bind].
  apply PutPixel_blocks_or_panics. cbn [lock wg].
  destruct (lock c); [left; reflexivity | right].
  cbn [negb andb] in H. apply andb_false_iff in H.
  destruct H as [H | H]; [apply Z.leb_gt in H | apply Z.ltb_ge in H]; lia.
Qed.

(** X10: the driver loop on a non-empty list of pixels completes exactly
    when it starts with the mutex free and a counter from 0 to [2^31 - 2];
    it then leaves the counter as it found it and the mutex free, and has
    made the calls of the pixels in loop order.  Otherwise the very first
    pixel blocks or panics: on a held mutex, on a negative counter, and on
    the counter [2^31 - 1], where [wg.Add(1)] overflows the [int32].  On no
    pixel at all the canvas is returned as it is. *)
Theorem draw_scene_outcome (spheres : list Sphere) (lights : list Light)
    (O : Vector) (coords : list (Z * Z)) (c : Canvas) :
  draw_scene Pow spheres lights O coords c
  = match coords with
    | [] => Some c
    | _ :: _ =>
        if negb (lock c) && (0 <=? wg c) && (wg c <? int32_max)
        then Some (mkCanvas false (wg c)
                     (ctx c ++ flat_map
                        (fun xy => pixel_calls xy
                                     (pixel_color Pow spheres lights O xy))
                        coords))
        else None
    end.
Proof.
  destruct coords as [| xy rest]; [reflexivity |].
  destruct (negb (lock c) && (0 <=? wg c) && (wg c <? int32_max)) eqn:H.
  - apply andb_true_iff in H. destruct H as [H Hmax].
    apply andb_true_iff in H. destruct H as [Hl Hw].
    apply negb_true_iff in Hl. apply Z.leb_le in Hw.
    apply Z.ltb_lt in Hmax.
    apply draw_scene_returns; [assumption | lia].
  - cbn [draw_scene]. rewrite draw_pixel_fails by exact H. reflexivity.
Qed.

End DriverMore.

Section CellsMore.
Local Open Scope Z_scope.

Lemma NoDup_int_range (lo hi : Z) : NoDup (int_range lo hi).
Proof.
  unfold int_range. apply NoDup_map_NoDup_ForallPairs; [| apply seq_NoDup].
  intros a b' _ _ H. lia.
Qed.

Lemma NoDup_pairs {A B : Type} (xs : list A) (ys : list B) :
  NoDup xs -> NoDup ys ->
  NoDup (flat_map (fun x => map (fun y => (x, y)) ys) xs).
Proof.
  intros Hx Hy. induction Hx as [| x0 xs Hnin Hx IH]; [constructor |].
  cbn [flat_map]. apply NoDup_app.
  - apply NoDup_map_NoDup_ForallPairs; [| exact Hy].
    intros a b' _ _ H. inversion H. reflexivity.
  - exact IH.
  - intros [x1 y1] Hin Hin'. apply in_map_iff in Hin.
    destruct Hin as (y2 & Heq & _). inversion Heq; subst.
    apply in_flat_map in Hin'. destruct Hin' as (x2 & Hx2 & Hin').
    apply in_map_iff in Hin'. destruct Hin' as (y3 & Heq' & _).
    inversion Heq'; subst. contradiction.
Qed.

(** X12: the loop sends its [Cw * Ch] pixels to pairwise distinct canvas
    cells, and the cells reached are exactly the columns [0 .. Cw - 1] of
    the rows [1 .. Ch]: no cell of row 0 is ever written, and the [Cw] cells
    of row [Ch] lie outside the canvas. *)
Theorem pixel_cells_distinct :
  NoDup (map cell pixel_coords) /\
  (forall i j : Z,
     In (i, j) (map cell pixel_coords) <->
     0 <= i <= Cw - 1 /\ 1 <= j <= Ch).
Proof.
  split.
  - apply NoDup_map_NoDup_ForallPairs.
    + intros [x1 y1] [x2 y2] H1 H2. unfold cell. cbn [fst snd].
      apply In_pixel_coords in H1. apply In_pixel_coords in H2.
      rewrite (ChangeCoord2D_in_range x1 y1), (ChangeCoord2D_in_range x2 y2)
        by tauto.
      change (Z.quot Cw 2) with 512. change (Z.quot Ch 2) with 512.
      intros H. apply pair_equal_spec in H. f_equal; lia.
    + unfold pixel_coords. apply NoDup_pairs; apply NoDup_int_range.
  - intros i j. rewrite in_map_iff. split.
    + intros ([x0 y0] & Hc & Hin). apply In_pixel_coords in Hin.
      unfold cell in Hc. cbn [fst snd] in Hc.
      rewrite ChangeCoord2D_in_range in Hc by tauto.
      apply pair_equal_spec in Hc. destruct Hc as [<- <-]. revert Hin.
      change (Z.quot (- Cw) 2) with (-512).
      change (Z.quot (- Ch) 2) with (-512).
      change (Z.quot Cw 2) with 512. change (Z.quot Ch 2) with 512.
      change Cw with 1024. change Ch with 1024. lia.
    + intros [Hi Hj]. exists (i - Z.quot Cw 2, Z.quot Ch 2 - j).
      assert (Hx : Z.quot (- Cw) 2 <= i - Z.quot Cw 2 < Z.quot Cw 2).
      { revert Hi. change (Z.quot (- Cw) 2) with (-512).
        change (Z.quot Cw 2) with 512. change Cw with 1024. lia. }
      assert (Hy : Z.quot (- Ch) 2 <= Z.quot Ch 2 - j < Z.quot Ch 2).
      { revert Hj. change (Z.quot (- Ch) 2) with (-512).
        change (Z.quot Ch 2) with 512. change Ch with 1024. lia. }
      split; [| apply In_pixel_coords; split; assumption].
      unfold cell. cbn [fst snd].
      rewrite ChangeCoord2D_in_range by assumption.
      change (Z.quot Cw 2) with 512. change (Z.quot Ch 2) with 512.
      f_equal; lia.
Qed.

End CellsMore.

Section RaysMore.

Lemma component_squares_checked :
  forallb (fun a => forallb (fun c => 1 <=? a + c + 1) component_squares)
          component_squares = true.
Proof. vm_compute. reflexivity. Qed.

(** X13: every primary ray the driver casts has the third component of its
    direction equal to 1 and [dot D D >= 1]: its direction is never zero,
    and the leading coefficient [a] of the quadratic solved for it is at
    least 1. *)
Theorem primary_ray_direction (px py : Z) :
  (Z.quot (- Cw) 2 <= px < Z.quot Cw 2)%Z ->
  (Z.quot (- Ch) 2 <= py < Z.quot Ch 2)%Z ->
  z (CanvasToViewPort px py) = 1 /\
  (1 <=? dot (CanvasToViewPort px py) (CanvasToViewPort px py)) = true.
Proof.
  intros Hx Hy. split; [reflexivity |].
  unfold dot, CanvasToViewPort, MakeVector. cbn [x y z].
  change (float64 d * float64 d) with 1%float.
  change (float64 py * float64 Vh / float64 Ch)
    with (viewport_component py).
  change (float64 px * float64 Vw / float64 Cw)
    with (viewport_component px).
  pose proof component_squares_checked as H.
  rewrite forallb_forall in H.
  assert (Hin : forall k, (Z.quot (- Cw) 2 <= k < Z.quot Cw 2)%Z ->
            In (viewport_component k * viewport_component k)
               component_squares).
  { intros k Hk. unfold component_squares.
    apply (in_map (fun k => viewport_component k * viewport_component k)).
    apply In_int_range. exact Hk. }
  specialize (H _ (Hin px Hx)). rewrite forallb_forall in H.
  apply H. apply Hin. exact Hy.
Qed.

End RaysMore.

Lemma primary_ray_direction_witness :
  z (CanvasToViewPort 0 0) = 1 /\
  (1 <=? dot (CanvasToViewPort 0 0) (CanvasToViewPort 0 0)) = true.
Proof.
  apply (primary_ray_direction 0 0); vm_compute; split; congruence.
Defined.

(** ** Vector algebra *)

Section AlgebraMore.
Import FloatOrder FloatOrderFacts.

Lemma SFadd_comm (u v : spec_float) :
  SFadd prec emax u v = SFadd prec emax v u.
Proof.
  destruct u as [su | su | | su mu eu], v as [sv | sv | | sv mv ev];
    try destruct su; try destruct sv; try reflexivity;
    cbn [SFadd]; rewrite (Z.min_comm ev eu); f_equal; apply Z.add_comm.
Qed.

Lemma SFmul_comm (u v : spec_float) :
  SFmul prec emax u v = SFmul prec emax v u.
Proof.
  destruct u as [su | su | | su mu eu], v as [sv | sv | | sv mv ev];
    cbn [SFmul]; try rewrite (xorb_comm sv su); try reflexivity.
  rewrite (Pos.mul_comm mv mu), (Z.add_comm ev eu). reflexivity.
Qed.

Lemma SFsub_add_opp (u v : spec_float) :
  SFsub prec emax u v = SFadd prec emax u (SFopp v).
Proof.
  destruct u as [su | su | | su mu eu], v as [sv | sv | | sv mv ev];
    try destruct su; try destruct sv; try reflexivity;
    cbn [SFsub SFadd SFopp negb cond_Zopp]; f_equal; lia.
Qed.

Lemma SFopp_involutive (u : spec_float) : SFopp (SFopp u) = u.
Proof. destruct u as [s | s | | s m e]; cbn; rewrite ?negb_involutive; auto. Qed.

Lemma float_add_comm (u v : float) : (u + v = v + u)%float.
Proof. apply Prim2SF_inj. rewrite !add_spec. apply SFadd_comm. Qed.

Lemma float_mul_comm (u v : float) : (u * v = v * u)%float.
Proof. apply Prim2SF_inj. rewrite !mul_spec. apply SFmul_comm. Qed.

Lemma float_sub_add_opp (u v : float) : (u - v = u + - v)%float.
Proof.
  apply Prim2SF_inj. rewrite sub_spec, add_spec, opp_spec.
  apply SFsub_add_opp.
Qed.

Lemma float_opp_involutive (u : float) : (- - u = u)%float.
Proof. apply Prim2SF_inj. rewrite !opp_spec. apply SFopp_involutive. Qed.

(** X14: in binary64 arithmetic [add], [mul] and [dot] do not depend on
    the order of their two arguments, NaN and infinite components
    included. *)
Theorem vector_operations_commute (a c : Vector) :
  add a c = add c a /\ mul a c = mul c a /\ dot a c = dot c a.
Proof.
  unfold add, mul, dot, MakeVector.
  split; [| split].
  - f_equal; apply float_add_comm.
  - f_equal; apply float_mul_comm.
  - rewrite (float_mul_comm (x a)), (float_mul_comm (y a)),
            (float_mul_comm (z a)). reflexivity.
Qed.

(** X15: [sub a c] and [add a (neg c)] have the same components, and so
    have [neg (neg a)] and [a]: the same number, the same signed zero or
    the same infinity, and NaN where the other has NaN (which NaN is not
    represented here). *)
Theorem sub_is_add_neg (a c : Vector) :
  sub a c = add a (neg c) /\ neg (neg a) = a.
Proof.
  unfold sub, add, neg, MakeVector. cbn [x y z]. split.
  - f_equal; apply float_sub_add_opp.
  - destruct a as [ax ay az]. cbn [x y z].
    rewrite !float_opp_involutive. reflexivity.
Qed.

Lemma binary_round_aux_nonneg (m e : Z) (l : location) :
  sf_nonneg (binary_round_aux prec emax false m e l).
Proof.
  unfold binary_round_aux.
  destruct (shr_fexp prec emax m e l) as [mrs' e'].
  destruct (shr_fexp prec emax _ e' loc_Exact) as [mrs'' e''].
  destruct (shr_m mrs''); cbn; auto.
  destruct (_ <=? _)%Z; cbn; auto.
Qed.

Lemma SFmul_self_nonneg (u : spec_float) : sf_nonneg (SFmul prec emax u u).
Proof.
  destruct u as [s | s | | s m e]; cbn [SFmul sf_nonneg];
    rewrite ?xorb_nilpotent; auto.
  apply binary_round_aux_nonneg.
Qed.

Lemma SFadd_nonneg (u v : spec_float) :
  sf_nonneg u -> sf_nonneg v -> sf_nonneg (SFadd prec emax u v).
Proof.
  destruct u as [su | su | | su mu eu], v as [sv | sv | | sv mv ev];
    cbn [sf_nonneg]; intros Hu Hv; subst; cbn [SFadd sf_nonneg]; auto.
  - destruct su, sv; cbn; auto.
  - cbn [cond_Zopp Z.add binary_normalize]. unfold binary_round.
    destruct (shl_align _ _ _) as [mz ez]. apply binary_round_aux_nonneg.
Qed.

Lemma SFsqrt_nonneg (u : spec_float) : sf_nonneg (SFsqrt prec emax u).
Proof.
  destruct u as [s | s | | s m e]; try destruct s; cbn [SFsqrt sf_nonneg];
    auto.
  destruct (SFsqrt_core_binary prec emax (Z.pos m) e) as [[mz ez] lz].
  apply binary_round_aux_nonneg.
Qed.

Lemma nonneg_or_nan_iff (f : float) :
  sf_nonneg (Prim2SF f) -> nonneg_or_nan f = true.
Proof.
  unfold nonneg_or_nan, GoMath.IsNaN. rewrite leb_spec, eqb_spec.
  change (Prim2SF 0) with (S754_zero false).
  destruct (Prim2SF f) as [s | s | | s m e]; cbn [sf_nonneg];
    intros H; subst; try reflexivity.
  - unfold SFeqb, SFleb. cbn [SFcompare]. rewrite Z.compare_refl.
    replace (Pos.compare_cont Eq m m) with Eq
      by (symmetry; apply Pos.compare_cont_refl).
    reflexivity.
Qed.

(** X16: [dot a a] and [norm a] are never below zero: for every vector
    each of them is NaN or [>= 0]; so the coefficient [a] of the quadratic
    and the divisor of [normalize] are never negative. *)
Theorem norm_not_negative (a : Vector) :
  nonneg_or_nan (dot a a) = true /\ nonneg_or_nan (norm a) = true.
Proof.
  split; apply nonneg_or_nan_iff.
  - unfold dot. rewrite !add_spec, !mul_spec.
    repeat apply SFadd_nonneg; apply SFmul_self_nonneg.
  - unfold norm, GoMath.Sqrt. rewrite sqrt_spec. apply SFsqrt_nonneg.
Qed.

End AlgebraMore.

(** ** Colours once more *)

Section ColourMore.
Import FloatOrder FloatOrderFacts.

Lemma eqb_1_eq (u : float) : (u =? 1) = true -> u = 1%float.
Proof.
  intros H. apply Prim2SF_inj. rewrite eqb_spec in H.
  change (Prim2SF 1) with (S754_finite false 4503599627370496 (-52)) in *.
  unfold SFeqb in H.
  destruct (Prim2SF u) as [s | s | | s m e]; try destruct s;
    cbn [SFcompare] in H; try discriminate.
  destruct (e ?= -52)%Z eqn:Ee; try discriminate.
  destruct (Pos.compare_cont Eq m 4503599627370496) eqn:Em;
    try discriminate.
  apply Z.compare_eq in Ee. apply Pos.compare_eq in Em. subst.
  reflexivity.
Qed.

Lemma IsNaN_eq_nan (u : float) : GoMath.IsNaN u = true -> u = nan.
Proof. intros H. apply IsNaN_fnan in H. apply Prim2SF_inj. exact H. Qed.

Lemma Min_1_keeps (m : float) :
  GoMath.IsNaN m = false -> (0 <=? m) = true -> (m <=? 1) = true ->
  GoMath.Min m 1 = m.
Proof.
  intros Hn H0 H1. unfold GoMath.Min. rewrite Hn.
  change (GoMath.IsNaN 1) with false.
  change (1 =? neg_infinity) with false.
  assert (E1 : (m =? neg_infinity) = false) by forder.
  rewrite E1. cbn [orb].
  assert (E2 : (m =? 0) && (m =? 1) = false).
  { destruct (m =? 0) eqn:Ea; [| reflexivity].
    destruct (m =? 1) eqn:Eb; [exfalso; forder | reflexivity]. }
  rewrite E2. destruct (m <? 1) eqn:E3; [reflexivity |].
  symmetry. apply eqb_1_eq. forder.
Qed.

Lemma Max_0_keeps (m : float) :
  GoMath.IsNaN m = false -> (0 <=? m) = true -> (m <=? 1) = true ->
  ((m =? 0) = true -> GoMath.Signbit m = false) ->
  GoMath.Max m 0 = m.
Proof.
  intros Hn H0 H1 Hs. unfold GoMath.Max. rewrite Hn.
  change (GoMath.IsNaN 0) with false.
  change (0 =? infinity) with false.
  assert (E1 : (m =? infinity) = false) by forder.
  rewrite E1. cbn [orb].
  destruct (m =? 0) eqn:E2; cbn [andb].
  - rewrite Hs; reflexivity.
  - assert (E3 : (0 <? m) = true) by forder. rewrite E3. reflexivity.
Qed.

(** What a clamped channel looks like: NaN itself, or a value of the unit
    interval that is not the negative zero. *)
Lemma clamp_channel_shape (v : float) :
  let ch := GoMath.Max (GoMath.Min v 1) 0 in
  ch = nan \/
  (GoMath.IsNaN ch = false /\ (0 <=? ch) = true /\ (ch <=? 1) = true /\
   ((ch =? 0) = true -> GoMath.Signbit ch = false)).
Proof.
  cbv zeta. destruct (GoMath.IsNaN v) eqn:Hv.
  - left. rewrite (Min_1_nan v Hv). reflexivity.
  - right. destruct (Min_1_le v Hv) as [Hn Hle].
    destruct (Max_0_unit _ Hn Hle) as [Hn' Hu].
    unfold in_unit in Hu. apply andb_true_iff in Hu. destruct Hu as [H0 H1].
    repeat split; try assumption.
    unfold GoMath.Max. rewrite Hn.
    change (GoMath.IsNaN 0) with false.
    change (0 =? infinity) with false.
    assert (E1 : (GoMath.Min v 1 =? infinity) = false) by forder.
    rewrite E1. cbn [orb].
    destruct (GoMath.Min v 1 =? 0) eqn:E2; cbn [andb].
    + destruct (GoMath.Signbit (GoMath.Min v 1)) eqn:E3; intros _;
        [reflexivity | exact E3].
    + destruct (0 <? GoMath.Min v 1) eqn:E3; intros H;
        [exfalso; forder | reflexivity].
Qed.

Lemma clamp_twice (v : float) :
  let ch := GoMath.Max (GoMath.Min v 1) 0 in
  GoMath.Max (GoMath.Min ch 1) 0 = ch.
Proof.
  cbv zeta. destruct (clamp_channel_shape v) as [-> | (Hn & H0 & H1 & Hs)];
    [reflexivity |].
  rewrite Min_1_keeps by assumption. apply Max_0_keeps; assumption.
Qed.

(** X17: clamping is idempotent: making a colour again from the channels
    of a colour that [MakeColor] has built returns that very colour, bit
    for bit, NaN channels included. *)
Theorem MakeColor_idempotent (r0 g0 b0 : float) :
  let c := MakeColor r0 g0 b0 in
  MakeColor (r c) (g c) (b c) = c.
Proof.
  cbv zeta. unfold MakeColor. cbn [r g b].
  rewrite !clamp_twice. reflexivity.
Qed.

(** X18: [AddColors] does not depend on the order of its two colours. *)
Theorem AddColors_comm (c1 c2 : Color) : AddColors c1 c2 = AddColors c2 c1.
Proof.
  unfold AddColors.
  rewrite (float_add_comm (r c1)), (float_add_comm (g c1)),
          (float_add_comm (b c1)).
  reflexivity.
Qed.

End ColourMore.

(** ** A NaN discriminant *)

Section NanDiscriminant.
Import FloatOrder FloatOrderFacts.

Lemma add_nan_r (u : float) : (u + nan)%float = nan.
Proof.
  apply Prim2SF_inj. rewrite add_spec.
  change (Prim2SF nan) with S754_nan.
  destruct (Prim2SF u) as [s | s | | s m e]; reflexivity.
Qed.

Lemma sub_nan_r (u : float) : (u - nan)%float = nan.
Proof.
  apply Prim2SF_inj. rewrite sub_spec.
  change (Prim2SF nan) with S754_nan.
  destruct (Prim2SF u) as [s | s | | s m e]; reflexivity.
Qed.

Lemma div_nan_l (u : float) : (nan / u)%float = nan.
Proof.
  apply Prim2SF_inj. rewrite div_spec.
  change (Prim2SF nan) with S754_nan. reflexivity.
Qed.

(** X19: a NaN discriminant is not taken for a miss: the test
    [discrim < 0] is false, both roots come back as NaN, and the scan of
    [ClosestIntersection] leaves its state untouched on such a sphere. *)
Theorem IntersectRaySphere_nan_discriminant
    (origin direction : Vector) (sphere : Sphere) :
  GoMath.IsNaN (discriminant origin direction sphere) = true ->
  IntersectRaySphere origin direction sphere = (nan, nan) /\
  forall (t_min t_max : float) (st : option Sphere * float),
    closest_step origin direction t_min t_max st sphere = st.
Proof.
  intros Hnan.
  assert (E : IntersectRaySphere origin direction sphere = (nan, nan)).
  { unfold IntersectRaySphere. cbv zeta.
    fold (discriminant origin direction sphere).
    apply IsNaN_eq_nan in Hnan. rewrite Hnan.
    change (nan <? 0) with false. cbv iota.
    change (GoMath.Sqrt nan) with nan.
    rewrite add_nan_r, sub_nan_r, div_nan_l. reflexivity. }
  split; [exact E |].
  intros t_min t_max st. unfold closest_step. rewrite E.
  change (nan <? snd st) with (nan <? snd st).
  assert (L : forall u, (nan <? u) = false).
  { intros u. rewrite ltb_spec. change (Prim2SF nan) with S754_nan.
    reflexivity. }
  rewrite L. cbn [andb]. rewrite L. reflexivity.
Qed.

End NanDiscriminant.

Lemma IntersectRaySphere_nan_discriminant_witness :
  IntersectRaySphere (MakeVector infinity 0 0) TestScene.ahead
    TestScene.mirror = (nan, nan).
Proof.
  apply (IntersectRaySphere_nan_discriminant (MakeVector infinity 0 0)
           TestScene.ahead TestScene.mirror).
  reflexivity.
Defined.
